(** * RSA attack comparison: a shallow embedding of the numeric core

    The development follows [rsa-attack-comparison.cpp]: modular
    exponentiation ([modExp]), trial-division factoring ([primeFactors]),
    Euler's totient ([totient]), the extended Euclidean algorithm
    ([modInverse]) and the two attacks ([attack1], [attack2]).

    Conventions of the embedding.
    - [long long] values are integers of [Z]; C++ [/] and [%] truncate
      towards zero, so they are [Z.quot] and [Z.rem].  Signed overflow is
      undefined in C++ and is not modelled: signed operations are computed
      on [Z].  This is exact where no signed operation overflows: in
      [modInverse] on non-negative arguments (see [modInverse_loop_range])
      and on arguments that are not coprime, where the only quotient that
      can overflow, [-2^63 / -1], does not occur; in [totient] on factors
      whose product is a [long long].
    - [unsigned long long] values are integers in [[0, 2^64)]; a product is
      reduced modulo [2^64] ([umul]) and a conversion from [long long] is
      [to_u64].
    - Every [while]/[for] loop is a [Fixpoint] on a fuel counter; running
      out of fuel is [Timeout].  A program "returns [v]" when some amount of
      fuel yields [Ret v] ([returns]); all programs are stable under adding
      fuel ([stable]), so this notion is deterministic.
    - A remainder by zero is undefined in C++ and stops the program: it is
      the [Fault] [DivisionByZero].
    - [std::vector::operator[]] is unchecked.  On an empty vector the data
      pointer is null and the read stops the program: it is the [Fault]
      [IndexOutOfRange].  On a non-empty vector a read past the size
      yields whatever [long long] lies behind the last element, and the
      program goes on with it: that value is the parameter [past] of
      [index], [primeFactors] and [attack2] (in [primeFactors] only
      [res[1]] on a one-element vector is such a read).
    - [sqrt] in [primeFactors] is evaluated in double precision.  For
      [0 <= x < 2^52] the conversion is exact and the rounded root satisfies
      [i <= sqrt(x)] iff [i <= Z.sqrt x] for every integer [i]; for negative
      [x] the root is NaN and the comparison is false, as is
      [3 <= Z.sqrt x = 0].  The embedding uses [Z.sqrt]. *)

From Stdlib Require Import ZArith Znumtheory Lia List Bool.
From Stdlib Require Import Zmod.ZmodInv.
From Stdlib Require Import Sorted.
Import ListNotations.
Local Open Scope Z_scope.

(** ** Outcomes of a run *)

Inductive fault : Type :=
| DivisionByZero
| IndexOutOfRange.

Inductive outcome (A : Type) : Type :=
| Ret (a : A)
| Fault (f : fault)
| Timeout.

Arguments Ret {A} a.
Arguments Fault {A} f.
Arguments Timeout {A}.

Definition bind {A B : Type} (c : outcome A) (k : A -> outcome B) : outcome B :=
  match c with
  | Ret a => k a
  | Fault f => Fault f
  | Timeout => Timeout
  end.

Notation "x <- c ;; k" := (bind c (fun x => k))
  (at level 61, c at next level, right associativity).
Notation "' pat <- c ;; k" := (bind c (fun x => match x with pat => k end))
  (at level 61, pat pattern, c at next level, right associativity).

(** A fuel-indexed program returns [v] when some fuel suffices. *)
Definition returns {A : Type} (c : nat -> outcome A) (v : A) : Prop :=
  exists fuel, c fuel = Ret v.

Definition faults {A : Type} (c : nat -> outcome A) (f : fault) : Prop :=
  exists fuel, c fuel = Fault f.

(** More fuel never changes a result that is not [Timeout]. *)
Definition stable {A : Type} (c : nat -> outcome A) : Prop :=
  forall k k' r, c k = r -> r <> Timeout -> (k <= k')%nat -> c k' = r.

(** ** 64-bit unsigned arithmetic *)

Definition two64 : Z := 2 ^ 64.
Definition two63 : Z := 2 ^ 63.

(** Conversion of a [long long] to [unsigned long long]. *)
Definition to_u64 (z : Z) : Z := z mod two64.

(** Product of two [unsigned long long] values. *)
Definition umul (x y : Z) : Z := (x * y) mod two64.

(** ** modExp *)

(** [while (e > 0) { if (e % 2 == 1) x = (x * a) % b; a = (a * a) % b; e /= 2; }
    return x;] *)
Fixpoint modExp_loop (fuel : nat) (x a e b : Z) : outcome Z :=
  match fuel with
  | O => Timeout
  | S k =>
      if 0 <? e then
        let x' := if Z.rem e 2 =? 1 then Z.rem (umul x a) b else x in
        let a' := Z.rem (umul a a) b in
        modExp_loop k x' a' (Z.quot e 2) b
      else Ret x
  end.

(** [unsigned long long modExp(unsigned long long a, long long e,
    unsigned long long b)]; [a %= b] with [b = 0] is a remainder by zero. *)
Definition modExp (a e b : Z) (fuel : nat) : outcome Z :=
  if b =? 0 then Fault DivisionByZero
  else modExp_loop fuel 1 (Z.rem a b) e b.

(** ** primeFactors *)

(** [while (x % 2 == 0) x /= 2;] *)
Fixpoint halve_loop (fuel : nat) (x : Z) : outcome Z :=
  match fuel with
  | O => Timeout
  | S k =>
      if Z.rem x 2 =? 0 then halve_loop k (Z.quot x 2) else Ret x
  end.

(** [while (x % i == 0) { res.push_back(i); x /= i; }] *)
Fixpoint divide_out (fuel : nat) (i x : Z) (res : list Z) : outcome (Z * list Z) :=
  match fuel with
  | O => Timeout
  | S k =>
      if Z.rem x i =? 0 then divide_out k i (Z.quot x i) (res ++ [i])
      else Ret (x, res)
  end.

(** [for (int i = 3; i <= sqrt(x); i += 2) { while ... }] from a current [i];
    the bound is re-evaluated with the current [x] at every test. *)
Fixpoint trial_loop (fuel : nat) (i x : Z) (res : list Z) : outcome (Z * list Z) :=
  match fuel with
  | O => Timeout
  | S k =>
      if i <=? Z.sqrt x then
        '(x', res') <- divide_out k i x res ;;
        trial_loop k (i + 2) x' res'
      else Ret (x, res)
  end.

(** The vector [res] as it stands just before [p = res[0]; q = res[1];]. *)
Definition factor_sequence (x : Z) (fuel : nat) : outcome (list Z) :=
  x1 <- halve_loop fuel x ;;
  '(x2, res) <- trial_loop fuel 3 x1 [] ;;
  Ret (if 2 <? x2 then res ++ [x2] else res).

(** [res[k]], unchecked: within the size it is the element; on an empty
    vector the read stops the program; past the size of a non-empty vector
    it yields the value [past] found there. *)
Definition index (past : Z) (res : list Z) (k : nat) : outcome Z :=
  match nth_error res k with
  | Some v => Ret v
  | None =>
      match res with
      | [] => Fault IndexOutOfRange
      | _ :: _ => Ret past
      end
  end.

(** [void primeFactors(long long x, long long& p, long long& q)]; the two
    reference parameters are the returned pair, and [past] is what the read
    of [res[1]] finds when the vector has one element. *)
Definition primeFactors (past : Z) (x : Z) (fuel : nat) : outcome (Z * Z) :=
  res <- factor_sequence x fuel ;;
  p <- index past res 0 ;;
  q <- index past res 1 ;;
  Ret (p, q).

(** ** totient *)

Definition totient (p q : Z) : Z := (p - 1) * (q - 1).

(** ** modInverse *)

(** [while (b != 0) { q = a / b; t1 = a % b; t2 = d + q * y;
    d = y; y = t2; a = b; b = t1; i = -i; }]; the loop's result is the
    final [(a, d, i)]. *)
Fixpoint modInverse_loop (fuel : nat) (a b d y i : Z) : outcome (Z * Z * Z) :=
  match fuel with
  | O => Timeout
  | S k =>
      if b =? 0 then Ret (a, d, i)
      else
        let q := Z.quot a b in
        let t1 := Z.rem a b in
        let t2 := d + q * y in
        modInverse_loop k b t1 y t2 (- i)
  end.

(** [long long modInverse(long long e, long long phiN)]; [0] is returned
    when [a != 1] at the end of the loop. *)
Definition modInverse (e phiN : Z) (fuel : nat) : outcome Z :=
  '(a, d, i) <- modInverse_loop fuel e phiN 1 0 1 ;;
  if negb (a =? 1) then Ret 0
  else if i <? 0 then Ret (phiN - d)
  else Ret d.

(** ** attack1 *)

(** [for (long long m = 0; m < n; m++) { if (modExp(m, e, n) == c) return m; }
    return -1;] from a current [m].  The arguments [m] and [n] are converted
    to [unsigned long long] at the call, and so is [c] in the comparison. *)
Fixpoint attack1_loop (fuel : nat) (e n c m : Z) : outcome Z :=
  match fuel with
  | O => Timeout
  | S k =>
      if m <? n then
        r <- modExp (to_u64 m) e (to_u64 n) k ;;
        if r =? to_u64 c then Ret m else attack1_loop k e n c (m + 1)
      else Ret (-1)
  end.

Definition attack1 (e n c : Z) (fuel : nat) : outcome Z :=
  attack1_loop fuel e n c 0.

(** ** attack2 *)

(** [for (long long m = 0; m < n; m++) { if (ptext == m) return m; }
    return -1;] from a current [m]. *)
Fixpoint attack2_scan (fuel : nat) (ptext n m : Z) : outcome Z :=
  match fuel with
  | O => Timeout
  | S k =>
      if m <? n then
        if ptext =? to_u64 m then Ret m else attack2_scan k ptext n (m + 1)
      else Ret (-1)
  end.

(** [long long attack2(long long e, long long n, long long c,
    long long& p, long long& q, long long& d)]: the result is the returned
    value together with the three reference parameters, [(m, p, q, d)]. *)
Definition attack2 (past : Z) (e n c : Z) (fuel : nat) : outcome (Z * Z * Z * Z) :=
  '(p, q) <- primeFactors past n fuel ;;
  d <- modInverse e (totient p q) fuel ;;
  ptext <- modExp (to_u64 c) d (to_u64 n) fuel ;;
  m <- attack2_scan fuel ptext n 0 ;;
  Ret (m, p, q, d).

(** [attack2] as the specification words it: the value of
    [modExp(c, d, n)] is returned directly, without the closing scan. *)
Definition attack2_direct (past : Z) (e n c : Z) (fuel : nat) : outcome (Z * Z * Z * Z) :=
  '(p, q) <- primeFactors past n fuel ;;
  d <- modInverse e (totient p q) fuel ;;
  m <- modExp (to_u64 c) d (to_u64 n) fuel ;;
  Ret (m, p, q, d).

(** ** The invariant of the Euclidean loop

    Used in the proofs about [modInverse] on non-negative inputs [e0] and
    [phi]: [a] and [b] are the current remainders, [d] and [y] the absolute
    values of the two latest coefficients of [e0], and [i] the sign of the
    coefficient [d]. *)
Definition euclid_inv (e0 phi a b d y i : Z) : Prop :=
  (0 <= a /\ 0 <= b /\ 0 <= d /\ 0 <= y) /\
  (i = 1 \/ i = -1) /\
  (phi | a - i * d * e0) /\
  (phi | b + i * y * e0) /\
  a * y + b * d = phi /\
  Z.gcd a b = Z.gcd e0 phi /\
  ((d = 1 /\ y = 0) \/ (b < a /\ d <= y)).

(** The states [(a, b, d, y, i)] that the loop of [modInverse] goes through
    on the inputs [e0] and [phi]. *)
Inductive euclid_reach (e0 phi : Z) : Z -> Z -> Z -> Z -> Z -> Prop :=
| reach_init : euclid_reach e0 phi e0 phi 1 0 1
| reach_step a b d y i :
    euclid_reach e0 phi a b d y i -> b <> 0 ->
    euclid_reach e0 phi b (Z.rem a b) y (d + Z.quot a b * y) (- i).

(** ** A primality test for concrete moduli

    Not part of the program: [no_divisor_from k j p] checks that none of
    [j, j + 1, ..., j + k - 1] divides [p]; it discharges [Z.prime] on
    the concrete primes of the scenarios below. *)
Fixpoint no_divisor_from (k : nat) (j p : Z) : bool :=
  match k with
  | O => true
  | S k' => negb (p mod j =? 0) && no_divisor_from k' (j + 1) p
  end.

Definition prime_check (p : Z) : bool :=
  (1 <? p) && no_divisor_from (Z.to_nat (p - 2)) 2 p.

(** ** Notions used in the further properties

    Not part of the program: the product of a list of factors, odd primes,
    the absence of small divisors, and the invariant of the trial-division
    loop of [primeFactors] on the odd value [x0] left by the halving loop
    ([i] the current trial divisor, [x] the current cofactor, [res] the
    vector). *)
Definition product (l : list Z) : Z := fold_right Z.mul 1 l.

Definition odd_prime (p : Z) : Prop := Z.prime p /\ 2 < p.

Definition no_divisor_below (i x : Z) : Prop :=
  forall d, 1 < d < i -> ~ (d | x).

Definition trial_inv (x0 i x : Z) (res : list Z) : Prop :=
  3 <= i /\ Z.odd i = true /\ 1 <= x /\ Z.odd x = true /\
  no_divisor_below i x /\
  product res * x = x0 /\
  Forall (fun p => odd_prime p /\ p < i) res /\
  StronglySorted Z.le res.

(** [primeFactors] after its halving loop, on the value [x1] that the loop
    left: the trial loop, the final push and the two reads. *)
Definition primeFactors_after_halving (past : Z) (x1 : Z) (fuel : nat) : outcome (Z * Z) :=
  res <- ('(x2, res) <- trial_loop fuel 3 x1 [] ;;
          Ret (if 2 <? x2 then res ++ [x2] else res)) ;;
  p <- index past res 0 ;;
  q <- index past res 1 ;;
  Ret (p, q).

(** * Properties *)

(** ** Outcomes and fuel *)

Lemma bind_ret_inv {A B : Type} (c : outcome A) (k : A -> outcome B) (v : B) :
  bind c k = Ret v -> exists a, c = Ret a /\ k a = Ret v.
Proof.
  destruct c as [a| |]; simpl; intros H; try discriminate.
  exists a; split; [reflexivity | exact H].
Qed.

Lemma bind_transport {A B : Type} (c1 c2 : outcome A) (f1 f2 : A -> outcome B) r :
  bind c1 f1 = r -> r <> Timeout ->
  (forall s, c1 = s -> s <> Timeout -> c2 = s) ->
  (forall a s, f1 a = s -> s <> Timeout -> f2 a = s) ->
  bind c2 f2 = r.
Proof.
  intros Hb Hr Hc Hf.
  destruct c1 as [a|f|] eqn:E; simpl in Hb.
  - rewrite (Hc (Ret a)) by (reflexivity || discriminate). simpl. now apply Hf.
  - rewrite (Hc (Fault f)) by (reflexivity || discriminate). exact Hb.
  - congruence.
Qed.

Lemma stable_bind {A B : Type} (c : nat -> outcome A) (d : A -> nat -> outcome B) :
  stable c -> (forall a, stable (d a)) ->
  stable (fun k => bind (c k) (fun a => d a k)).
Proof.
  intros Hc Hd k k' r Hr Hnt Hle.
  apply (bind_transport (c k) (c k') (fun a => d a k) (fun a => d a k') r Hr Hnt).
  - intros s Hs Hs'. exact (Hc k k' s Hs Hs' Hle).
  - intros a s Hs Hs'. exact (Hd a k k' s Hs Hs' Hle).
Qed.

Lemma stable_const {A : Type} (o : outcome A) : stable (fun _ => o).
Proof. intros k k' r H _ _. exact H. Qed.

Lemma returns_unique {A : Type} (c : nat -> outcome A) (v w : A) :
  stable c -> returns c v -> returns c w -> v = w.
Proof.
  intros Hs [k Hk] [j Hj].
  assert (H1 : c (Nat.max k j) = Ret v)
    by (apply (Hs k); [exact Hk | discriminate | apply Nat.le_max_l]).
  assert (H2 : c (Nat.max k j) = Ret w)
    by (apply (Hs j); [exact Hj | discriminate | apply Nat.le_max_r]).
  congruence.
Qed.

Lemma faults_not_returns {A : Type} (c : nat -> outcome A) (f : fault) (v : A) :
  stable c -> faults c f -> ~ returns c v.
Proof.
  intros Hs [k Hk] [j Hj].
  assert (H1 : c (Nat.max k j) = Fault f)
    by (apply (Hs k); [exact Hk | discriminate | apply Nat.le_max_l]).
  assert (H2 : c (Nat.max k j) = Ret v)
    by (apply (Hs j); [exact Hj | discriminate | apply Nat.le_max_r]).
  congruence.
Qed.

Lemma returns_at {A : Type} (c : nat -> outcome A) (v : A) (k k' : nat) :
  stable c -> c k = Ret v -> (k <= k')%nat -> c k' = Ret v.
Proof. intros Hs Hk Hle. apply (Hs k); [exact Hk | discriminate | exact Hle]. Qed.

(** One step of a stability proof for a loop written on fuel: the settled
    run used at least one unit, and so does the longer one. *)
Ltac fuel_step k IH :=
  unfold stable; induction k as [|k IH]; intros;
  match goal with
  | Hr : _ = ?r, Hnt : ?r <> Timeout, Hle : (_ <= ?k')%nat |- _ =>
      simpl in Hr; try congruence;
      let j := fresh "j" in
      destruct k' as [|j]; [lia |]; apply le_S_n in Hle; simpl
  end.

Lemma modExp_loop_stable x a e b : stable (fun k => modExp_loop k x a e b).
Proof.
  intros k. revert x a e. fuel_step k IH.
  destruct (0 <? e); [| assumption].
  eapply IH; eauto.
Qed.

Lemma modExp_stable a e b : stable (modExp a e b).
Proof.
  unfold modExp. destruct (b =? 0).
  - apply stable_const.
  - apply modExp_loop_stable.
Qed.

Lemma halve_loop_stable x : stable (fun k => halve_loop k x).
Proof.
  intros k. revert x. fuel_step k IH.
  destruct (Z.rem x 2 =? 0); [| assumption].
  eapply IH; eauto.
Qed.

Lemma divide_out_stable i x res : stable (fun k => divide_out k i x res).
Proof.
  intros k. revert x res. fuel_step k IH.
  destruct (Z.rem x i =? 0); [| assumption].
  eapply IH; eauto.
Qed.

Lemma trial_loop_stable i x res : stable (fun k => trial_loop k i x res).
Proof.
  intros k. revert i x res. fuel_step k IH.
  destruct (i <=? Z.sqrt x); [| assumption].
  eapply bind_transport; [eassumption | assumption | |].
  - intros s Hs Hs'. eapply divide_out_stable; eauto.
  - intros [x' res'] s Hs Hs'. eapply IH; eauto.
Qed.

Lemma factor_sequence_stable x : stable (factor_sequence x).
Proof.
  unfold factor_sequence.
  apply (stable_bind (fun k => halve_loop k x)); [apply halve_loop_stable |].
  intros x1.
  apply (stable_bind (fun k => trial_loop k 3 x1 [])); [apply trial_loop_stable |].
  intros [x2 res]. apply stable_const.
Qed.

Lemma primeFactors_stable past x : stable (primeFactors past x).
Proof.
  unfold primeFactors.
  apply (stable_bind (factor_sequence x)); [apply factor_sequence_stable |].
  intros res. apply stable_const.
Qed.

Lemma modInverse_loop_stable a b d y i :
  stable (fun k => modInverse_loop k a b d y i).
Proof.
  intros k. revert a b d y i. fuel_step k IH.
  destruct (b =? 0); [assumption |].
  eapply IH; eauto.
Qed.

Lemma modInverse_stable e phiN : stable (modInverse e phiN).
Proof.
  unfold modInverse.
  apply (stable_bind (fun k => modInverse_loop k e phiN 1 0 1));
    [apply modInverse_loop_stable |].
  intros [[a d] i]. apply stable_const.
Qed.

Lemma attack1_loop_stable e n c m : stable (fun k => attack1_loop k e n c m).
Proof.
  intros k. revert m. fuel_step k IH.
  destruct (m <? n); [| assumption].
  eapply bind_transport; [eassumption | assumption | |].
  - intros s Hs Hs'. eapply modExp_stable; eauto.
  - intros v s Hs Hs'. simpl in Hs |- *.
    destruct (v =? to_u64 c); [exact Hs |].
    eapply IH; eauto.
Qed.

Lemma attack1_stable e n c : stable (attack1 e n c).
Proof. apply attack1_loop_stable. Qed.

Lemma attack2_scan_stable ptext n m : stable (fun k => attack2_scan k ptext n m).
Proof.
  intros k. revert m. fuel_step k IH.
  destruct (m <? n); [| assumption].
  destruct (ptext =? to_u64 m); [assumption |].
  eapply IH; eauto.
Qed.

Lemma attack2_stable past e n c : stable (attack2 past e n c).
Proof.
  unfold attack2.
  apply (stable_bind (primeFactors past n)); [apply primeFactors_stable |].
  intros [p q].
  apply (stable_bind (modInverse e (totient p q))); [apply modInverse_stable |].
  intros d.
  apply (stable_bind (modExp (to_u64 c) d (to_u64 n))); [apply modExp_stable |].
  intros ptext.
  apply (stable_bind (fun k => attack2_scan k ptext n 0));
    [apply attack2_scan_stable |].
  intros m. apply stable_const.
Qed.

(** ** modExp computes a power modulo [b] *)

Lemma two64_pos : 0 < two64.
Proof. reflexivity. Qed.

Lemma umul_small x y : 0 <= x * y < two64 -> umul x y = x * y.
Proof. intros H. unfold umul. now apply Z.mod_small. Qed.

Lemma to_u64_small z : 0 <= z < two64 -> to_u64 z = z.
Proof. intros H. unfold to_u64. now apply Z.mod_small. Qed.

Lemma rem_2_odd e : 0 <= e -> (Z.rem e 2 =? 1) = Z.odd e.
Proof.
  intros He. rewrite Z.rem_mod_nonneg by lia.
  rewrite Zmod_odd. now destruct (Z.odd e).
Qed.

Lemma modExp_loop_S k x a e b :
  modExp_loop (S k) x a e b =
  if 0 <? e then
    modExp_loop k (if Z.rem e 2 =? 1 then Z.rem (umul x a) b else x)
      (Z.rem (umul a a) b) (Z.quot e 2) b
  else Ret x.
Proof. reflexivity. Qed.

(** The loop invariant of square-and-multiply: with [x] the accumulator and
    [a] the current square, the run ends with [x * a ^ e mod b]; the
    accumulator is returned unreduced when the loop body never runs. *)
Lemma modExp_loop_spec k : forall x a e b,
  1 <= b -> b * b < two64 ->
  0 <= a < b -> 0 <= x -> (x < b \/ x = 1) ->
  0 <= e < 2 ^ Z.of_nat k ->
  modExp_loop (S k) x a e b = Ret (if e =? 0 then x else (x * a ^ e) mod b).
Proof.
  induction k as [|k IH]; intros x a e b Hb Hbb Ha Hx0 Hx He.
  - assert (e = 0) by (simpl in He; lia). subst e. reflexivity.
  - rewrite modExp_loop_S. destruct (Z.ltb_spec 0 e) as [Hpos|Hnpos].
    2:{ assert (e = 0) by lia. subst e. reflexivity. }
    assert (Hxa : umul x a = x * a) by (apply umul_small; nia).
    assert (Haa : umul a a = a * a) by (apply umul_small; nia).
    rewrite Hxa, Haa, rem_2_odd by lia.
    rewrite !Z.rem_mod_nonneg by nia.
    rewrite Z.quot_div_nonneg by lia.
    assert (He2 : e = 2 * (e / 2) + (if Z.odd e then 1 else 0)).
    { rewrite (Z.div_mod e 2) at 1 by lia. rewrite Zmod_odd. reflexivity. }
    assert (Hq : 0 <= e / 2 < 2 ^ Z.of_nat k).
    { split; [apply Z.div_pos; lia |].
      apply Z.div_lt_upper_bound; [lia |].
      rewrite Nat2Z.inj_succ, Z.pow_succ_r in He by lia. lia. }
    assert (Hmodb : forall z, 0 <= z mod b < b) by (intros; apply Z.mod_pos_bound; lia).
    rewrite IH; try assumption; try apply Hmodb.
    2:{ destruct (Z.odd e); [apply Hmodb | assumption]. }
    2:{ destruct (Z.odd e); [left; apply Hmodb | assumption]. }
    f_equal.
    replace (e =? 0) with false by (symmetry; apply Z.eqb_neq; lia).
    assert (Hsq : forall z, (z * (a * a mod b) ^ (e / 2)) mod b
                            = (z * a ^ (2 * (e / 2))) mod b).
    { intros z. rewrite <- Z.mul_mod_idemp_r by lia.
      rewrite Z.mod_pow_l.
      rewrite Z.mul_mod_idemp_r by lia.
      rewrite Z.pow_mul_r by lia. now rewrite Z.pow_2_r. }
    destruct (Z.odd e) eqn:Hodd.
    + destruct (Z.eqb_spec (e / 2) 0) as [Hz|Hnz].
      * assert (e = 1) by lia. subst e. now rewrite Z.pow_1_r.
      * rewrite Hsq. rewrite Z.mul_mod_idemp_l by lia.
        rewrite He2 at 2. rewrite Z.pow_add_r, Z.pow_1_r by lia.
        f_equal. ring.
    + destruct (Z.eqb_spec (e / 2) 0) as [Hz|Hnz]; [lia |].
      rewrite Hsq. rewrite He2 at 2. now rewrite Z.add_0_r.
Qed.

Lemma modExp_loop_nonpos k x a e b :
  e <= 0 -> modExp_loop (S k) x a e b = Ret x.
Proof.
  intros He. simpl. destruct (Z.ltb_spec 0 e); [lia | reflexivity].
Qed.

(** What [modExp] returns on a modulus whose square fits the word. *)
Lemma modExp_fuel a e b k :
  0 <= a -> 1 <= b -> b * b < two64 -> 0 <= e < 2 ^ Z.of_nat k ->
  modExp a e b (S k) = Ret (if e =? 0 then 1 else a ^ e mod b).
Proof.
  intros Ha Hb Hbb He. unfold modExp.
  destruct (Z.eqb_spec b 0) as [Hz|_]; [lia |].
  rewrite Z.rem_mod_nonneg by lia.
  rewrite modExp_loop_spec; try assumption; try lia.
  - f_equal. destruct (e =? 0); [reflexivity |].
    rewrite Z.mul_1_l. apply Z.mod_pow_l.
  - apply Z.mod_pos_bound; lia.
Qed.

Lemma pow2_gt_self e : 0 <= e -> e < 2 ^ Z.of_nat (Z.to_nat e).
Proof.
  intros He. rewrite Z2Nat.id by assumption.
  apply Z.pow_gt_lin_r; lia.
Qed.

Lemma modExp_returns a e b :
  0 <= a -> 1 <= b -> b * b < two64 -> 0 <= e ->
  returns (modExp a e b) (if e =? 0 then 1 else a ^ e mod b).
Proof.
  intros Ha Hb Hbb He. exists (S (Z.to_nat e)).
  apply modExp_fuel; try assumption.
  split; [assumption | now apply pow2_gt_self].
Qed.

(** For a modulus of at least 2 the result is the power reduced modulo [b]. *)
Lemma modExp_correct a e b :
  0 <= a -> 2 <= b -> b * b < two64 -> 0 <= e ->
  returns (modExp a e b) (a ^ e mod b).
Proof.
  intros Ha Hb Hbb He.
  replace (a ^ e mod b) with (if e =? 0 then 1 else a ^ e mod b).
  - apply modExp_returns; lia.
  - destruct (Z.eqb_spec e 0) as [->|_]; [| reflexivity].
    rewrite Z.pow_0_r. symmetry. apply Z.mod_small. lia.
Qed.

(** Whatever the width, a result of [modExp] on a modulus of at least 2 is
    below the modulus. *)
Lemma modExp_loop_bound k : forall x a e b v,
  0 < b -> 0 <= x < b ->
  modExp_loop k x a e b = Ret v -> 0 <= v < b.
Proof.
  induction k as [|k IH]; intros x a e b v Hb Hx H; simpl in H; [discriminate |].
  destruct (0 <? e).
  - eapply IH; [exact Hb | | exact H].
    destruct (Z.rem e 2 =? 1); [| assumption].
    rewrite Z.rem_mod_nonneg; [apply Z.mod_pos_bound; lia | | lia].
    unfold umul. apply Z.mod_pos_bound. reflexivity.
  - now inversion H; subst.
Qed.

Lemma modExp_bound a e b k v :
  2 <= b -> modExp a e b k = Ret v -> 0 <= v < b.
Proof.
  unfold modExp. intros Hb H.
  destruct (b =? 0); [discriminate |].
  eapply modExp_loop_bound; [| | exact H]; lia.
Qed.

(** ** modInverse: the extended Euclidean loop *)

Lemma modInverse_loop_S k a b d y i :
  modInverse_loop (S k) a b d y i =
  if b =? 0 then Ret (a, d, i)
  else modInverse_loop k b (Z.rem a b) y (d + Z.quot a b * y) (- i).
Proof. reflexivity. Qed.

Lemma gcd_rem a b : Z.gcd b (Z.rem a b) = Z.gcd a b.
Proof.
  destruct (Z.eq_dec b 0) as [->|Hb].
  - rewrite Z.rem_0_r_ext by reflexivity. apply Z.gcd_comm.
  - rewrite Z.rem_eq by assumption.
    replace (a - b * Z.quot a b) with (a + (- Z.quot a b) * b) by ring.
    rewrite Z.gcd_add_mult_diag_r. apply Z.gcd_comm.
Qed.

(** On any integers the loop ends, and ends on [a = ± gcd]. *)
Lemma modInverse_loop_gcd k : forall a b d y i,
  Z.abs b < Z.of_nat k ->
  exists g d' i',
    modInverse_loop k a b d y i = Ret (g, d', i') /\ Z.abs g = Z.gcd a b.
Proof.
  induction k as [|k IH]; intros a b d y i Hk; [lia |].
  rewrite modInverse_loop_S.
  destruct (Z.eqb_spec b 0) as [->|Hb].
  - exists a, d, i. split; [reflexivity |]. now rewrite Z.gcd_0_r.
  - destruct (IH b (Z.rem a b) y (d + Z.quot a b * y) (- i)) as (g & d' & i' & H & Hg).
    + pose proof (Z.rem_bound_abs a b Hb). lia.
    + exists g, d', i'. split; [exact H |]. rewrite Hg. apply gcd_rem.
Qed.

Lemma euclid_inv_init e0 phi :
  0 <= e0 -> 0 <= phi -> euclid_inv e0 phi e0 phi 1 0 1.
Proof.
  intros He Hp. unfold euclid_inv.
  split; [lia |]. split; [now left |].
  split; [exists 0; ring |]. split; [exists 1; ring |].
  split; [ring |]. split; [reflexivity |].
  left. split; reflexivity.
Qed.

Lemma euclid_inv_step e0 phi a b d y i :
  euclid_inv e0 phi a b d y i -> b <> 0 ->
  euclid_inv e0 phi b (Z.rem a b) y (d + Z.quot a b * y) (- i).
Proof.
  intros ((Ha & Hb & Hd & Hy) & Hi & [u Hu] & [v Hv] & Hphi & Hg & Hord) Hnz.
  rewrite Z.rem_mod_nonneg, Z.quot_div_nonneg by lia.
  pose proof (Z.mod_pos_bound a b ltac:(lia)) as Hm.
  pose proof (Z.div_pos a b Ha ltac:(lia)) as Hq.
  pose proof (Z.div_mod a b Hnz) as Hdm.
  assert (Hq1 : b < a -> 1 <= a / b)
    by (intros; apply Z.div_le_lower_bound; lia).
  unfold euclid_inv.
  split; [repeat split; nia |].
  split; [lia |].
  split; [exists v; rewrite <- Hv; ring |].
  split.
  { exists (u - a / b * v).
    replace (a mod b + - i * (d + a / b * y) * e0)
      with ((a - i * d * e0) - a / b * (b + i * y * e0))
      by (rewrite Hdm at 1; ring).
    rewrite Hu, Hv. ring. }
  split; [rewrite Hdm in Hphi at 1; nia |].
  split.
  { rewrite <- Hg, <- (gcd_rem a b).
    now rewrite Z.rem_mod_nonneg by lia. }
  right. split; [lia |].
  destruct Hord as [[-> ->] | [Hlt Hle]]; [lia |].
  specialize (Hq1 Hlt). nia.
Qed.

Lemma modInverse_loop_spec e0 phi k : forall a b d y i,
  euclid_inv e0 phi a b d y i -> b < Z.of_nat k ->
  exists g d' y' i',
    modInverse_loop k a b d y i = Ret (g, d', i') /\
    euclid_inv e0 phi g 0 d' y' i'.
Proof.
  induction k as [|k IH]; intros a b d y i Hinv Hk.
  - destruct Hinv as ((_ & Hb & _) & _). lia.
  - rewrite modInverse_loop_S.
    destruct (Z.eqb_spec b 0) as [->|Hb].
    + exists a, d, y, i. split; [reflexivity | exact Hinv].
    + apply IH.
      * now apply euclid_inv_step.
      * destruct Hinv as ((Ha & Hb0 & _) & _).
        rewrite Z.rem_mod_nonneg by lia.
        pose proof (Z.mod_pos_bound a b ltac:(lia)). lia.
Qed.

(** No signed operation of the loop leaves the range of its inputs: on
    non-negative [e0] and positive [phi], in every state that is reached the
    remainders are at most the larger input, and the quotient, the product
    [q * y] and the sum [d + q * y] computed by the next iteration are at
    most the larger input, [phi] and [phi]. *)
Lemma euclid_reach_inv e0 phi a b d y i :
  0 <= e0 -> 0 <= phi -> euclid_reach e0 phi a b d y i ->
  euclid_inv e0 phi a b d y i /\ a <= Z.max e0 phi /\ b <= Z.max e0 phi.
Proof.
  intros He Hp Hr. induction Hr as [|a b d y i Hr IH Hb].
  - split; [now apply euclid_inv_init | lia].
  - destruct IH as (Hinv & Ha & Hbm).
    split; [now apply euclid_inv_step |].
    destruct Hinv as ((Ha0 & Hb0 & _) & _).
    rewrite Z.rem_mod_nonneg by lia.
    pose proof (Z.mod_pos_bound a b ltac:(lia)). lia.
Qed.

Lemma modInverse_loop_range e0 phi a b d y i :
  0 <= e0 -> 0 <= phi -> euclid_reach e0 phi a b d y i -> b <> 0 ->
  0 <= a <= Z.max e0 phi /\ 0 < b <= Z.max e0 phi /\
  0 <= Z.quot a b <= Z.max e0 phi /\
  0 <= Z.rem a b < b /\
  0 <= Z.quot a b * y <= phi /\
  0 <= d + Z.quot a b * y <= phi.
Proof.
  intros He Hp Hr Hb.
  destruct (euclid_reach_inv e0 phi a b d y i He Hp Hr) as (Hinv & Ha & Hbm).
  pose proof (euclid_inv_step e0 phi a b d y i Hinv Hb) as Hnext.
  destruct Hinv as ((Ha0 & Hb0 & Hd0 & Hy0) & _).
  destruct Hnext as ((_ & Hr0 & _ & Ht0) & _ & _ & _ & Hphi & _).
  rewrite Z.rem_mod_nonneg, Z.quot_div_nonneg in * by lia.
  pose proof (Z.mod_pos_bound a b ltac:(lia)) as Hm.
  pose proof (Z.div_pos a b Ha0 ltac:(lia)) as Hq.
  assert (Hqa : a / b <= a) by (apply Z.div_le_upper_bound; nia).
  repeat split; try lia; try nia.
Qed.

Lemma multiple_not_1 u p : 2 <= p -> u * p <> 1.
Proof.
  intros Hp H.
  assert (Hd : (p | 1)) by (exists u; lia).
  apply Z.divide_1_r_nonneg in Hd; lia.
Qed.

(** With a modulus of at least 2 and coprime arguments the value returned
    is the inverse of [e] in [[1, phiN)]. *)
Lemma modInverse_inverse e phiN :
  0 <= e -> 2 <= phiN -> Z.gcd e phiN = 1 ->
  exists d, modInverse e phiN (S (Z.to_nat phiN)) = Ret d /\
            (e * d) mod phiN = 1 /\ 0 < d < phiN.
Proof.
  intros He Hp Hg.
  destruct (modInverse_loop_spec e phiN (S (Z.to_nat phiN)) e phiN 1 0 1)
    as (g & d & y & i & Hrun & Hinv).
  { apply euclid_inv_init; lia. }
  { lia. }
  destruct Hinv as ((Hg0 & _ & Hd & Hy) & Hi & [u Hu] & _ & Hphi & Hgcd & Hord).
  rewrite Z.gcd_0_r, Hg in Hgcd.
  assert (g = 1) by lia. subst g.
  assert (y = phiN) by lia. subst y.
  assert (Hdle : d <= phiN) by (destruct Hord as [[_ ->] | [_ Hle]]; lia).
  unfold modInverse. rewrite Hrun. simpl.
  assert (Hone : 1 mod phiN = 1) by (apply Z.mod_small; lia).
  assert (Hd0 : d <> 0).
  { intros ->. destruct Hi as [-> | ->];
      apply (multiple_not_1 u phiN Hp); lia. }
  assert (HdN : d <> phiN).
  { intros ->. destruct Hi as [-> | ->].
    - apply (multiple_not_1 (u + e) phiN Hp); lia.
    - apply (multiple_not_1 (u - e) phiN Hp); lia. }
  destruct Hi as [-> | ->]; simpl.
  - exists d. split; [reflexivity |]. split; [| lia].
    replace (e * d) with (1 + (- u) * phiN) by lia.
    now rewrite Z.mod_add by lia.
  - exists (phiN - d). split; [reflexivity |]. split; [| lia].
    replace (e * (phiN - d)) with (1 + (e - u) * phiN) by lia.
    now rewrite Z.mod_add by lia.
Qed.

(** When the arguments are not coprime the loop ends on [a <> 1] and the
    function returns [0]. *)
Lemma modInverse_not_coprime e phiN :
  Z.gcd e phiN <> 1 ->
  modInverse e phiN (S (Z.to_nat (Z.abs phiN))) = Ret 0.
Proof.
  intros Hg.
  destruct (modInverse_loop_gcd (S (Z.to_nat (Z.abs phiN))) e phiN 1 0 1)
    as (g & d & i & Hrun & Habs); [lia |].
  unfold modInverse. rewrite Hrun. simpl.
  destruct (Z.eqb_spec g 1) as [->|_]; [| reflexivity].
  simpl in Habs. congruence.
Qed.

(** ** Running the loops of primeFactors *)

(** Sequencing two settled runs. *)
Lemma returns_bind {A B : Type} (c : nat -> outcome A) (d : A -> nat -> outcome B)
      (a : A) (v : B) :
  stable c -> stable (d a) ->
  returns c a -> returns (d a) v ->
  returns (fun k => bind (c k) (fun x => d x k)) v.
Proof.
  intros Hc Hd [k Hk] [j Hj]. exists (Nat.max k j).
  rewrite (returns_at c a k _ Hc Hk (Nat.le_max_l k j)). simpl.
  apply (returns_at (d a) v j _ Hd Hj (Nat.le_max_r k j)).
Qed.

Lemma faults_bind {A B : Type} (c : nat -> outcome A) (d : A -> nat -> outcome B)
      (a : A) (f : fault) :
  stable c -> stable (d a) ->
  returns c a -> faults (d a) f ->
  faults (fun k => bind (c k) (fun x => d x k)) f.
Proof.
  intros Hc Hd [k Hk] [j Hj]. exists (Nat.max k j).
  rewrite (returns_at c a k _ Hc Hk (Nat.le_max_l k j)). simpl.
  apply (Hd j); [exact Hj | discriminate | apply Nat.le_max_r].
Qed.

Lemma halve_loop_odd x : Z.rem x 2 <> 0 -> returns (fun k => halve_loop k x) x.
Proof.
  intros H. exists 1%nat. simpl.
  destruct (Z.eqb_spec (Z.rem x 2) 0); [contradiction | reflexivity].
Qed.

Lemma halve_loop_even x v :
  Z.rem x 2 = 0 -> returns (fun k => halve_loop k (Z.quot x 2)) v ->
  returns (fun k => halve_loop k x) v.
Proof.
  intros H [k Hk]. exists (S k). simpl. now rewrite H.
Qed.

Lemma divide_out_done i x res :
  Z.rem x i <> 0 -> returns (fun k => divide_out k i x res) (x, res).
Proof.
  intros H. exists 1%nat. simpl.
  destruct (Z.eqb_spec (Z.rem x i) 0); [contradiction | reflexivity].
Qed.

Lemma divide_out_more i x res v :
  Z.rem x i = 0 ->
  returns (fun k => divide_out k i (Z.quot x i) (res ++ [i])) v ->
  returns (fun k => divide_out k i x res) v.
Proof.
  intros H [k Hk]. exists (S k). simpl. now rewrite H.
Qed.

Lemma trial_loop_exit i x res :
  Z.sqrt x < i -> returns (fun k => trial_loop k i x res) (x, res).
Proof.
  intros H. exists 1%nat. simpl.
  destruct (Z.leb_spec i (Z.sqrt x)); [lia | reflexivity].
Qed.

Lemma trial_loop_iter i x res x' res' v :
  i <= Z.sqrt x ->
  returns (fun k => divide_out k i x res) (x', res') ->
  returns (fun k => trial_loop k (i + 2) x' res') v ->
  returns (fun k => trial_loop k i x res) v.
Proof.
  intros Hi [k Hk] [j Hj]. exists (S (Nat.max k j)). simpl.
  destruct (Z.leb_spec i (Z.sqrt x)); [| lia].
  rewrite (returns_at _ _ k _ (divide_out_stable i x res) Hk (Nat.le_max_l k j)).
  simpl.
  apply (returns_at _ _ j _ (trial_loop_stable (i + 2) x' res') Hj (Nat.le_max_r k j)).
Qed.

(** *** Arithmetic of primes used by trial division *)

Lemma rem_nonzero_of_not_divide x j : j <> 0 -> ~ (j | x) -> Z.rem x j <> 0.
Proof. intros Hj Hn H. apply Hn. now apply Z.rem_divide. Qed.

Lemma odd_prime_odd p : Z.prime p -> 2 < p -> Z.odd p = true.
Proof.
  intros [_ Hp] H2. destruct (Z.odd p) eqn:E; [reflexivity |].
  exfalso. apply (Hp 2); [lia |].
  rewrite <- Z.negb_even in E. apply negb_false_iff in E.
  apply Z.even_spec in E. destruct E as [h Hh]. exists h. lia.
Qed.

Lemma odd_rem_2 x : Z.odd x = true -> Z.rem x 2 <> 0.
Proof.
  intros Ho H. apply Z.rem_divide in H; [| lia].
  destruct H as [h Hh]. subst x.
  rewrite Z.odd_mul in Ho. simpl in Ho. now rewrite andb_false_r in Ho.
Qed.

Lemma sqrt_lt_self_prime q j : Z.prime q -> 2 <= j -> j <= Z.sqrt q -> 1 < j < q.
Proof.
  intros [Hq _] Hj Hs.
  pose proof (Z.sqrt_spec q ltac:(lia)) as [Hlo _]. nia.
Qed.

Lemma prime_no_small_divisor q j :
  Z.prime q -> 2 <= j -> j <= Z.sqrt q -> Z.rem q j <> 0.
Proof.
  intros Hq Hj Hs. apply rem_nonzero_of_not_divide; [lia |].
  apply (proj2 Hq). now apply sqrt_lt_self_prime.
Qed.

Lemma semiprime_no_small_divisor p q j :
  Z.prime p -> Z.prime q -> p <= q -> 1 < j < p -> ~ (j | p * q).
Proof.
  intros Hp Hq Hle Hj Hd.
  assert (Hc : Z.gcd j p = 1).
  { rewrite Z.gcd_comm. apply Z.coprime_prime_small; [assumption | lia]. }
  apply Z.gauss in Hd; [| exact Hc].
  apply (proj2 Hq j); [lia | exact Hd].
Qed.

Lemma le_sqrt_semiprime p q : 0 < p -> p <= q -> p <= Z.sqrt (p * q).
Proof.
  intros Hp Hle. apply Z.sqrt_le_square; nia.
Qed.

(** *** The three phases of trial division on an odd semiprime *)

(** On a prime [q], from any [i >= 2], nothing divides and the loop leaves
    [q] and the vector untouched. *)
Lemma trial_loop_prime q res (n : nat) : forall i,
  Z.prime q -> 2 <= i -> Z.sqrt q < i + 2 * Z.of_nat n ->
  returns (fun k => trial_loop k i q res) (q, res).
Proof.
  induction n as [|n IH]; intros i Hq Hi Hn.
  - apply trial_loop_exit. lia.
  - destruct (Z.le_gt_cases i (Z.sqrt q)) as [Hle|Hgt].
    + apply (trial_loop_iter i q res q res); [exact Hle | |].
      * apply divide_out_done. now apply prime_no_small_divisor.
      * apply IH; [assumption | lia | lia].
    + now apply trial_loop_exit.
Qed.

(** Below the smaller prime nothing divides [p * q]. *)
Lemma trial_loop_below p q res v (n : nat) : forall i,
  Z.prime p -> Z.prime q -> p <= q -> 2 <= i -> p = i + 2 * Z.of_nat n ->
  returns (fun k => trial_loop k p (p * q) res) v ->
  returns (fun k => trial_loop k i (p * q) res) v.
Proof.
  induction n as [|n IH]; intros i Hp Hq Hle Hi Hn Hrun.
  - replace i with p by lia. exact Hrun.
  - apply (trial_loop_iter i (p * q) res (p * q) res).
    + pose proof (le_sqrt_semiprime p q ltac:(lia) Hle). lia.
    + apply divide_out_done. apply rem_nonzero_of_not_divide; [lia |].
      apply semiprime_no_small_divisor; try assumption. lia.
    + apply IH; try assumption; lia.
Qed.

Lemma quot_mul_l p q : p <> 0 -> Z.quot (p * q) p = q.
Proof. intros Hp. rewrite Z.mul_comm. now apply Z.quot_mul. Qed.

Lemma rem_mul_l p q : p <> 0 -> Z.rem (p * q) p = 0.
Proof. intros Hp. rewrite Z.mul_comm. now apply Z.rem_mul. Qed.

(** At [i = p] the smaller prime is divided out, twice when [q = p]. *)
Lemma trial_loop_odd_semiprime p q :
  Z.prime p -> Z.prime q -> 2 < p -> p <= q ->
  exists x, x <= 2 /\
    returns (fun k => trial_loop k 3 (p * q) [])
            (if p =? q then (x, [p; q]) else (q, [p])).
Proof.
  intros Hp Hq H2 Hle.
  pose proof (odd_prime_odd p Hp H2) as Hodd.
  assert (Hn : exists n, p = 3 + 2 * Z.of_nat n).
  { exists (Z.to_nat ((p - 3) / 2)). rewrite Z2Nat.id by (apply Z.div_pos; lia).
    pose proof (Z.div_mod (p - 3) 2 ltac:(lia)) as Hdm.
    assert (Hm : (p - 3) mod 2 = 0).
    { rewrite Zmod_odd. replace (p - 3) with (p + -3) by lia.
      rewrite Z.odd_add, Hodd. reflexivity. }
    lia. }
  destruct Hn as [n Hn].
  exists 1. split; [lia |].
  apply (trial_loop_below p q [] _ n 3); try assumption; try lia.
  destruct (Z.eqb_spec p q) as [<-|Hne].
  - apply (trial_loop_iter p (p * p) [] 1 [p; p]).
    + apply le_sqrt_semiprime; lia.
    + apply divide_out_more; [apply rem_mul_l; lia |].
      rewrite quot_mul_l by lia. simpl.
      apply divide_out_more; [apply Z.rem_same; lia |].
      rewrite Z.quot_same by lia. simpl.
      apply divide_out_done. rewrite Z.rem_small; lia.
    + apply trial_loop_exit. change (Z.sqrt 1) with 1. lia.
  - apply (trial_loop_iter p (p * q) [] q [p]).
    + apply le_sqrt_semiprime; lia.
    + apply divide_out_more; [apply rem_mul_l; lia |].
      rewrite quot_mul_l by lia. simpl.
      apply divide_out_done. apply rem_nonzero_of_not_divide; [lia |].
      apply (proj2 Hq p). lia.
    + apply (trial_loop_prime q [p] (Z.to_nat q)); [assumption | lia |].
      pose proof (Z.sqrt_nonneg q).
      assert (Z.sqrt q <= q) by (apply Z.sqrt_le_lin; lia). lia.
Qed.

(** The vector collected on an odd semiprime is [[p; q]], smaller first. *)
Lemma factor_sequence_odd_semiprime p q :
  Z.prime p -> Z.prime q -> 2 < p -> p <= q ->
  returns (factor_sequence (p * q)) [p; q].
Proof.
  intros Hp Hq H2 Hle.
  destruct (trial_loop_odd_semiprime p q Hp Hq H2 Hle) as (x & Hx & Hrun).
  unfold factor_sequence.
  apply (returns_bind (fun k => halve_loop k (p * q)) _ (p * q));
    [apply halve_loop_stable | | |].
  - apply (stable_bind (fun k => trial_loop k 3 (p * q) []));
      [apply trial_loop_stable |].
    intros [x2 res]. apply stable_const.
  - apply halve_loop_odd. apply odd_rem_2.
    rewrite Z.odd_mul, (odd_prime_odd p), (odd_prime_odd q); trivial; lia.
  - destruct Hrun as [k Hk]. exists k. rewrite Hk. simpl.
    destruct (Z.eqb_spec p q) as [<-|Hne].
    + destruct (Z.ltb_spec 2 x); [lia | reflexivity].
    + destruct (Z.ltb_spec 2 q); [reflexivity | lia].
Qed.

(** The vector collected on an odd prime is [[n]]. *)
Lemma factor_sequence_odd_prime n :
  Z.prime n -> 2 < n -> returns (factor_sequence n) [n].
Proof.
  intros Hn H2.
  assert (Hrun : returns (fun k => trial_loop k 3 n []) (n, [])).
  { apply (trial_loop_prime n [] (Z.to_nat n)); [assumption | lia |].
    assert (Z.sqrt n <= n) by (apply Z.sqrt_le_lin; lia). lia. }
  unfold factor_sequence.
  apply (returns_bind (fun k => halve_loop k n) _ n);
    [apply halve_loop_stable | | |].
  - apply (stable_bind (fun k => trial_loop k 3 n []));
      [apply trial_loop_stable |].
    intros [x2 res]. apply stable_const.
  - apply halve_loop_odd. apply odd_rem_2. now apply odd_prime_odd.
  - destruct Hrun as [k Hk]. exists k. rewrite Hk. simpl.
    destruct (Z.ltb_spec 2 n); [reflexivity | lia].
Qed.

Lemma primeFactors_of_sequence past x res p q rest :
  returns (factor_sequence x) res -> res = p :: q :: rest ->
  returns (primeFactors past x) (p, q).
Proof.
  intros [k Hk] ->. exists k. unfold primeFactors. now rewrite Hk.
Qed.

(** The two reads on a vector that is too short: on an empty vector the
    read of [res[0]] stops the program; on a one-element vector the read of
    [res[1]] goes past the end and yields [past]. *)
Lemma primeFactors_empty past x :
  returns (factor_sequence x) [] ->
  faults (primeFactors past x) IndexOutOfRange.
Proof.
  intros [k Hk]. exists k. unfold primeFactors. now rewrite Hk.
Qed.

Lemma primeFactors_single past x r :
  returns (factor_sequence x) [r] ->
  returns (primeFactors past x) (r, past).
Proof.
  intros [k Hk]. exists k. unfold primeFactors. now rewrite Hk.
Qed.

Lemma primeFactors_odd_semiprime past p q :
  Z.prime p -> Z.prime q -> 2 < p -> p <= q ->
  returns (primeFactors past (p * q)) (p, q).
Proof.
  intros Hp Hq H2 Hle.
  apply (primeFactors_of_sequence past (p * q) [p; q] p q []); [| reflexivity].
  now apply factor_sequence_odd_semiprime.
Qed.

(** ** The arithmetic of RSA decryption *)

Lemma pow_fermat_cycle p m s :
  Z.prime p -> 0 <= s -> m ^ (1 + (p - 1) * s) mod p = m mod p.
Proof.
  intros Hp Hs.
  pose proof (Z.prime_ge_2 p Hp) as Hp2.
  rewrite Z.pow_add_r, Z.pow_1_r by nia.
  destruct (Z.eq_dec (m mod p) 0) as [Hz|Hnz].
  - rewrite <- Z.mul_mod_idemp_l, Hz by lia. now rewrite Z.mul_0_l, Z.mod_0_l by lia.
  - rewrite Z.pow_mul_r by lia.
    rewrite <- Z.mul_mod_idemp_r by lia.
    rewrite <- Z.mod_pow_l.
    rewrite (Z.fermat_nz p m Hp Hnz).
    rewrite Z.pow_1_l by assumption.
    rewrite Z.mul_mod_idemp_r by lia. now rewrite Z.mul_1_r.
Qed.

Lemma distinct_primes_coprime p q :
  Z.prime p -> Z.prime q -> p <> q -> Z.gcd p q = 1.
Proof.
  intros Hp Hq Hne. apply Z.coprime_prime_l; [assumption |].
  intros Hd. apply Hne. apply (Z.divide_prime_prime p q Hp Hq Hd).
Qed.

Lemma divide_product_coprime p q z :
  Z.gcd p q = 1 -> (p | z) -> (q | z) -> (p * q | z).
Proof.
  intros Hg [k ->] Hq.
  rewrite Z.mul_comm in Hq.
  apply Z.gauss in Hq; [| now rewrite Z.gcd_comm].
  destruct Hq as [j ->]. exists j. ring.
Qed.

Lemma mod_eq_of_divide n x y : 0 < n -> (n | x - y) -> x mod n = y mod n.
Proof.
  intros Hn [k Hk]. replace x with (y + k * n) by lia.
  apply Z.mod_add. lia.
Qed.

Lemma divide_of_mod_eq n x y : 0 < n -> x mod n = y mod n -> (n | x - y).
Proof.
  intros Hn H. exists (x / n - y / n).
  pose proof (Z.div_mod x n ltac:(lia)) as Hx.
  pose proof (Z.div_mod y n ltac:(lia)) as Hy.
  lia.
Qed.

(** Raising to [e * d] with [e * d = 1 (mod (p - 1) * (q - 1))] is the
    identity modulo a product of two distinct primes. *)
Lemma rsa_identity p q e d m :
  Z.prime p -> Z.prime q -> p <> q ->
  0 <= e -> 0 <= d -> (e * d) mod totient p q = 1 ->
  m ^ (e * d) mod (p * q) = m mod (p * q).
Proof.
  intros Hp Hq Hne He Hd Hed.
  pose proof (Z.prime_ge_2 p Hp) as Hp2.
  pose proof (Z.prime_ge_2 q Hq) as Hq2.
  unfold totient in Hed.
  assert (Hphi : 0 < (p - 1) * (q - 1)) by nia.
  pose proof (Z.div_mod (e * d) ((p - 1) * (q - 1)) ltac:(lia)) as Hdm.
  rewrite Hed in Hdm.
  set (t := e * d / ((p - 1) * (q - 1))) in *.
  assert (Ht : 0 <= t) by (apply Z.div_pos; nia).
  apply mod_eq_of_divide; [nia |].
  apply divide_product_coprime.
  - now apply distinct_primes_coprime.
  - apply divide_of_mod_eq; [lia |].
    replace (e * d) with (1 + (p - 1) * ((q - 1) * t)) by lia.
    apply pow_fermat_cycle; [assumption | nia].
  - apply divide_of_mod_eq; [lia |].
    replace (e * d) with (1 + (q - 1) * ((p - 1) * t)) by lia.
    apply pow_fermat_cycle; [assumption | nia].
Qed.

(** Decrypting an encryption gives the plaintext back. *)
Lemma rsa_decrypt p q e d m :
  Z.prime p -> Z.prime q -> p <> q ->
  0 <= e -> 0 <= d -> (e * d) mod totient p q = 1 ->
  0 <= m < p * q ->
  (m ^ e mod (p * q)) ^ d mod (p * q) = m.
Proof.
  intros Hp Hq Hne He Hd Hed Hm.
  rewrite Z.mod_pow_l, <- Z.pow_mul_r by assumption.
  rewrite (rsa_identity p q e d m) by assumption.
  now apply Z.mod_small.
Qed.

(** Encryption is injective on [[0, p * q)]. *)
Lemma rsa_injective p q e d m1 m2 :
  Z.prime p -> Z.prime q -> p <> q ->
  0 <= e -> 0 <= d -> (e * d) mod totient p q = 1 ->
  0 <= m1 < p * q -> 0 <= m2 < p * q ->
  m1 ^ e mod (p * q) = m2 ^ e mod (p * q) -> m1 = m2.
Proof.
  intros Hp Hq Hne He Hd Hed Hm1 Hm2 H.
  rewrite <- (rsa_decrypt p q e d m1), <- (rsa_decrypt p q e d m2) by assumption.
  now rewrite H.
Qed.

(** ** Running the scans of the two attacks *)

Lemma attack1_loop_end e n c m :
  n <= m -> returns (fun k => attack1_loop k e n c m) (-1).
Proof.
  intros H. exists 1%nat. simpl.
  destruct (Z.ltb_spec m n); [lia | reflexivity].
Qed.

Lemma attack1_loop_hit e n c m r :
  m < n -> returns (modExp (to_u64 m) e (to_u64 n)) r -> r = to_u64 c ->
  returns (fun k => attack1_loop k e n c m) m.
Proof.
  intros Hm [k Hk] Hr. exists (S k). simpl.
  destruct (Z.ltb_spec m n); [| lia].
  rewrite Hk. simpl. subst r. now rewrite Z.eqb_refl.
Qed.

Lemma attack1_loop_miss e n c m r v :
  m < n -> returns (modExp (to_u64 m) e (to_u64 n)) r -> r <> to_u64 c ->
  returns (fun k => attack1_loop k e n c (m + 1)) v ->
  returns (fun k => attack1_loop k e n c m) v.
Proof.
  intros Hm [k Hk] Hr [j Hj]. exists (S (Nat.max k j)). simpl.
  destruct (Z.ltb_spec m n); [| lia].
  rewrite (returns_at _ _ k _ (modExp_stable _ _ _) Hk (Nat.le_max_l k j)). simpl.
  destruct (Z.eqb_spec r (to_u64 c)); [contradiction |].
  apply (returns_at _ _ j _ (attack1_loop_stable e n c (m + 1)) Hj (Nat.le_max_r k j)).
Qed.

Section Attack1Scan.
Variables e n c : Z.
(** [val t] is what [modExp(t, e, n)] returns for a candidate [t]. *)
Variable val : Z -> Z.
Hypothesis modExp_val :
  forall t, 0 <= t < n -> returns (modExp (to_u64 t) e (to_u64 n)) (val t).

(** The scan returns the first candidate whose value is [c]. *)
Lemma attack1_loop_first (j : nat) : forall m0 m,
  0 <= m0 -> m = m0 + Z.of_nat j -> m < n ->
  val m = to_u64 c ->
  (forall t, m0 <= t < m -> val t <> to_u64 c) ->
  returns (fun k => attack1_loop k e n c m0) m.
Proof.
  induction j as [|j IH]; intros m0 m H0 Hm Hn Hhit Hmiss.
  - replace m0 with m by lia.
    apply (attack1_loop_hit e n c m (val m)); [lia | apply modExp_val; lia | exact Hhit].
  - apply (attack1_loop_miss e n c m0 (val m0)).
    + lia.
    + apply modExp_val; lia.
    + apply Hmiss; lia.
    + apply IH; try lia; try assumption.
      intros t Ht. apply Hmiss; lia.
Qed.

(** Without a matching candidate the scan runs to [n] and returns [-1]. *)
Lemma attack1_loop_none (j : nat) : forall m0,
  0 <= m0 -> n <= m0 + Z.of_nat j ->
  (forall t, m0 <= t < n -> val t <> to_u64 c) ->
  returns (fun k => attack1_loop k e n c m0) (-1).
Proof.
  induction j as [|j IH]; intros m0 H0 Hn Hmiss.
  - apply attack1_loop_end. lia.
  - destruct (Z.lt_ge_cases m0 n) as [Hlt|Hge].
    + apply (attack1_loop_miss e n c m0 (val m0)).
      * exact Hlt.
      * apply modExp_val; lia.
      * apply Hmiss; lia.
      * apply IH; try lia. intros t Ht. apply Hmiss; lia.
    + now apply attack1_loop_end.
Qed.
End Attack1Scan.

Lemma attack2_scan_hit ptext n m :
  m < n -> ptext = to_u64 m -> returns (fun k => attack2_scan k ptext n m) m.
Proof.
  intros Hm Hp. exists 1%nat. simpl.
  destruct (Z.ltb_spec m n); [| lia].
  subst ptext. now rewrite Z.eqb_refl.
Qed.

Lemma attack2_scan_miss ptext n m v :
  m < n -> ptext <> to_u64 m ->
  returns (fun k => attack2_scan k ptext n (m + 1)) v ->
  returns (fun k => attack2_scan k ptext n m) v.
Proof.
  intros Hm Hp [k Hk]. exists (S k). simpl.
  destruct (Z.ltb_spec m n); [| lia].
  destruct (Z.eqb_spec ptext (to_u64 m)); [contradiction | exact Hk].
Qed.

(** A value below [n] is found by the closing scan of [attack2]. *)
Lemma attack2_scan_finds ptext n (j : nat) : forall m0,
  0 <= m0 -> ptext = m0 + Z.of_nat j -> ptext < n -> n <= two64 ->
  returns (fun k => attack2_scan k ptext n m0) ptext.
Proof.
  induction j as [|j IH]; intros m0 H0 Hp Hn Hw.
  - replace m0 with ptext by lia.
    apply attack2_scan_hit; [exact Hn |].
    symmetry. apply to_u64_small. lia.
  - apply attack2_scan_miss.
    + lia.
    + rewrite to_u64_small by lia. lia.
    + apply IH; lia.
Qed.

Lemma attack2_scan_below ptext n :
  0 <= ptext < n -> n <= two64 ->
  returns (fun k => attack2_scan k ptext n 0) ptext.
Proof.
  intros Hp Hn.
  apply (attack2_scan_finds ptext n (Z.to_nat ptext) 0); lia.
Qed.

(** ** Composing and decomposing a run of attack2 *)

Lemma attack2_compose past e n c p q d ptext m :
  returns (primeFactors past n) (p, q) ->
  returns (modInverse e (totient p q)) d ->
  returns (modExp (to_u64 c) d (to_u64 n)) ptext ->
  returns (fun k => attack2_scan k ptext n 0) m ->
  returns (attack2 past e n c) (m, p, q, d).
Proof.
  intros [k1 H1] [k2 H2] [k3 H3] [k4 H4].
  exists (Nat.max (Nat.max k1 k2) (Nat.max k3 k4)). unfold attack2.
  rewrite (returns_at _ _ k1 _ (primeFactors_stable past n) H1) by lia. simpl.
  rewrite (returns_at _ _ k2 _ (modInverse_stable e (totient p q)) H2) by lia. simpl.
  rewrite (returns_at _ _ k3 _ (modExp_stable _ _ _) H3) by lia. simpl.
  rewrite (returns_at _ _ k4 _ (attack2_scan_stable ptext n 0) H4) by lia.
  reflexivity.
Qed.

Lemma attack2_direct_compose past e n c p q d m :
  returns (primeFactors past n) (p, q) ->
  returns (modInverse e (totient p q)) d ->
  returns (modExp (to_u64 c) d (to_u64 n)) m ->
  returns (attack2_direct past e n c) (m, p, q, d).
Proof.
  intros [k1 H1] [k2 H2] [k3 H3].
  exists (Nat.max (Nat.max k1 k2) k3). unfold attack2_direct.
  rewrite (returns_at _ _ k1 _ (primeFactors_stable past n) H1) by lia. simpl.
  rewrite (returns_at _ _ k2 _ (modInverse_stable e (totient p q)) H2) by lia. simpl.
  rewrite (returns_at _ _ k3 _ (modExp_stable _ _ _) H3) by lia.
  reflexivity.
Qed.

Lemma attack2_inv past e n c k m p q d :
  attack2 past e n c k = Ret (m, p, q, d) ->
  exists ptext,
    primeFactors past n k = Ret (p, q) /\
    modInverse e (totient p q) k = Ret d /\
    modExp (to_u64 c) d (to_u64 n) k = Ret ptext /\
    attack2_scan k ptext n 0 = Ret m.
Proof.
  unfold attack2. intros H.
  apply bind_ret_inv in H. destruct H as ([p' q'] & Hpf & H).
  apply bind_ret_inv in H. destruct H as (d' & Hinv & H).
  apply bind_ret_inv in H. destruct H as (ptext & Hexp & H).
  apply bind_ret_inv in H. destruct H as (m' & Hscan & H).
  inversion H; subst. exists ptext. repeat split; assumption.
Qed.

Lemma attack2_direct_inv past e n c k m p q d :
  attack2_direct past e n c k = Ret (m, p, q, d) ->
  primeFactors past n k = Ret (p, q) /\
  modInverse e (totient p q) k = Ret d /\
  modExp (to_u64 c) d (to_u64 n) k = Ret m.
Proof.
  unfold attack2_direct. intros H.
  apply bind_ret_inv in H. destruct H as ([p' q'] & Hpf & H).
  apply bind_ret_inv in H. destruct H as (d' & Hinv & H).
  apply bind_ret_inv in H. destruct H as (m' & Hexp & H).
  inversion H; subst. repeat split; assumption.
Qed.

(** [modExp] ends on every exponent, whatever the width. *)
Lemma modExp_loop_total k : forall x a e b,
  e < 2 ^ Z.of_nat k -> exists v, modExp_loop (S k) x a e b = Ret v.
Proof.
  induction k as [|k IH]; intros x a e b He.
  - rewrite modExp_loop_nonpos; [eauto | simpl in He; lia].
  - rewrite modExp_loop_S. destruct (Z.ltb_spec 0 e) as [Hpos|Hnpos]; [| eauto].
    apply IH. rewrite Z.quot_div_nonneg by lia.
    apply Z.div_lt_upper_bound; [lia |].
    rewrite Nat2Z.inj_succ, Z.pow_succ_r in He by lia. lia.
Qed.

Lemma modExp_total a e b :
  b <> 0 -> exists v, returns (modExp a e b) v.
Proof.
  intros Hb.
  destruct (modExp_loop_total (Z.to_nat e) 1 (Z.rem a b) e b) as [v Hv].
  - destruct (Z.le_gt_cases 0 e) as [He|He].
    + now apply pow2_gt_self.
    + pose proof (Z.pow_nonneg 2 (Z.of_nat (Z.to_nat e)) ltac:(lia)). lia.
  - exists v, (S (Z.to_nat e)). unfold modExp.
    destruct (Z.eqb_spec b 0); [contradiction | exact Hv].
Qed.

(** ** Concrete primes *)

Lemma no_divisor_from_sound k : forall j p n,
  0 < j -> no_divisor_from k j p = true ->
  j <= n < j + Z.of_nat k -> ~ (n | p).
Proof.
  induction k as [|k IH]; intros j p n Hj H Hn Hd; [lia |].
  simpl in H. apply andb_true_iff in H. destruct H as [Hnd Hrest].
  destruct (Z.eq_dec n j) as [->|Hne].
  - apply Z.mod_divide in Hd; [| lia].
    rewrite Hd in Hnd. discriminate.
  - apply (IH (j + 1) p n); try assumption; lia.
Qed.

Lemma prime_check_sound p : prime_check p = true -> Z.prime p.
Proof.
  unfold prime_check. intros H. apply andb_true_iff in H.
  destruct H as [H1 H2]. apply Z.ltb_lt in H1.
  split; [exact H1 |].
  intros n Hn.
  apply (no_divisor_from_sound (Z.to_nat (p - 2)) 2 p n); [lia | exact H2 | lia].
Qed.

Lemma prime_5 : Z.prime 5.
Proof. apply prime_check_sound. reflexivity. Qed.

Lemma prime_7 : Z.prime 7.
Proof. apply prime_check_sound. reflexivity. Qed.

Lemma prime_53 : Z.prime 53.
Proof. apply prime_check_sound. reflexivity. Qed.

Lemma prime_61 : Z.prime 61.
Proof. apply prime_check_sound. reflexivity. Qed.

Lemma prime_65537 : Z.prime 65537.
Proof. apply prime_check_sound. vm_compute. reflexivity. Qed.

Lemma prime_65539 : Z.prime 65539.
Proof. apply prime_check_sound. vm_compute. reflexivity. Qed.

Lemma modInverse_returns_0 e phiN :
  Z.gcd e phiN <> 1 -> returns (modInverse e phiN) 0.
Proof.
  intros Hg. exists (S (Z.to_nat (Z.abs phiN))).
  now apply modInverse_not_coprime.
Qed.

(** * The claims *)

(** ** Concrete scenario *)

(** C2.  On [e = 17], [n = 3233 = 53 * 61], [c = 2790 = 65 ^ 17 mod 3233]
    the brute-force attack returns [65], and the factoring attack returns
    [65] with the primes [53] and [61] (found in this order) and the
    private exponent [2753], the totient being [3120]. *)
Theorem concrete_scenario past :
  53 * 61 = 3233 /\ totient 53 61 = 3120 /\ 65 ^ 17 mod 3233 = 2790 /\
  returns (attack1 17 3233 2790) 65 /\
  returns (attack2 past 17 3233 2790) (65, 53, 61, 2753).
Proof.
  repeat split; try reflexivity; exists 100%nat; vm_compute; reflexivity.
Qed.

(** ** modInverse *)

(** C3, as the code has it.  For every [e >= 0] and every [phiN >= 2] with
    [gcd(e, phiN) = 1], [modInverse(e, phiN)] returns a [d] with
    [e * d mod phiN = 1] and [0 <= d < phiN]. *)
Theorem modInverse_correct e phiN :
  0 <= e -> 2 <= phiN -> Z.gcd e phiN = 1 ->
  exists d, returns (modInverse e phiN) d /\
            (e * d) mod phiN = 1 /\ 0 <= d < phiN.
Proof.
  intros He Hp Hg.
  destruct (modInverse_inverse e phiN He Hp Hg) as (d & Hrun & Hinv & Hrange).
  exists d. split; [now exists (S (Z.to_nat phiN)) |].
  split; [exact Hinv | lia].
Qed.

Lemma modInverse_correct_witness :
  exists d, returns (modInverse 17 3120) d /\
            (17 * d) mod 3120 = 1 /\ 0 <= d < 3120.
Proof.
  apply (modInverse_correct 17 3120); [lia | lia | reflexivity].
Defined.

(** C3 fails as stated at [e = 1], [phiN = 1]: the arguments are coprime
    and the value returned is [1], which is not below [phiN]. *)
Lemma modInverse_modulus_one :
  Z.gcd 1 1 = 1 /\
  returns (modInverse 1 1) 1 /\
  forall d, returns (modInverse 1 1) d -> ~ (0 <= d < 1).
Proof.
  assert (H : returns (modInverse 1 1) 1) by (exists 2%nat; reflexivity).
  split; [reflexivity |]. split; [exact H |].
  intros d Hd.
  rewrite (returns_unique _ d 1 (modInverse_stable 1 1) Hd H). lia.
Qed.

(** C4, as the code has it.  Whenever [gcd(e, phiN) <> 1], [modInverse]
    returns the integer [0]: the failure is reported through this value of
    the ordinary return type. *)
Theorem modInverse_sentinel e phiN :
  Z.gcd e phiN <> 1 -> returns (modInverse e phiN) 0.
Proof.
  exact (modInverse_returns_0 e phiN).
Qed.

Lemma modInverse_sentinel_witness : returns (modInverse 2 4) 0.
Proof.
  apply (modInverse_sentinel 2 4). vm_compute. discriminate.
Defined.

(** C4 fails as stated at [e = 2], [phiN = 4]: the gcd is [2] and the call
    returns the number [0], the value the claim rules out. *)
Lemma modInverse_2_4_returns_0 :
  Z.gcd 2 4 = 2 /\ returns (modInverse 2 4) 0.
Proof.
  split; [reflexivity |]. exists 3%nat. reflexivity.
Qed.

(** ** modExp *)

(** C9 at the failing input.  With exponent [0] and modulus [1] the
    accumulator [1] is returned unreduced, whereas [a ^ 0 mod 1 = 0]. *)
Theorem modExp_modulus_one a :
  returns (modExp a 0 1) 1 /\ a ^ 0 mod 1 = 0.
Proof.
  split.
  - exists 1%nat. reflexivity.
  - apply Z.mod_1_r.
Qed.

(** ** primeFactors *)

(** C5, as the code has it.  For every [n = p * q] with odd primes
    [p <= q] (and [n] below [2^52], where the double-precision root is
    exact), [primeFactors(n)] returns the pair [(p, q)]: both prime, of
    product [n], the smaller factor first. *)
Theorem primeFactors_correct past p q :
  Z.prime p -> Z.prime q -> 2 < p -> p <= q -> p * q < 2 ^ 52 ->
  returns (primeFactors past (p * q)) (p, q).
Proof.
  intros Hp Hq H2 Hle _. now apply primeFactors_odd_semiprime.
Qed.

Lemma primeFactors_correct_witness : returns (primeFactors 0 (53 * 61)) (53, 61).
Proof.
  apply (primeFactors_correct 0 53 61);
    [exact prime_53 | exact prime_61 | lia | lia | reflexivity].
Defined.

(** C5 fails as stated on the semiprime [6 = 2 * 3]: the factor [2] is
    stripped without being collected and the vector is [[3]], so [p = 3]
    and [q] is whatever the read of [res[1]] finds past the end; no such
    value gives [p * q = 6] with [p <= q]. *)
Lemma primeFactors_even_semiprime :
  Z.prime 2 /\ Z.prime 3 /\
  returns (factor_sequence (2 * 3)) [3] /\
  forall past,
    returns (primeFactors past (2 * 3)) (3, past) /\
    forall p q, returns (primeFactors past (2 * 3)) (p, q) ->
                ~ (p * q = 2 * 3 /\ p <= q).
Proof.
  assert (Hseq : returns (factor_sequence (2 * 3)) [3])
    by (exists 3%nat; reflexivity).
  split; [exact Z.prime_2 |]. split; [exact Z.prime_3 |].
  split; [exact Hseq |].
  intros past.
  pose proof (primeFactors_single past (2 * 3) 3 Hseq) as Hrun.
  split; [exact Hrun |].
  intros p q Hpq [Hprod Hle].
  pose proof (returns_unique _ _ _ (primeFactors_stable past (2 * 3)) Hpq Hrun) as Heq.
  inversion Heq; subst. lia.
Qed.

(** ** attack2 and a missing inverse *)

Lemma modExp_zero_exponent a b : b <> 0 -> returns (modExp a 0 b) 1.
Proof.
  intros Hb. exists 1%nat. unfold modExp.
  destruct (Z.eqb_spec b 0); [contradiction | reflexivity].
Qed.

(** C7 on the code.  For every odd semiprime [n = p * q] below [2^52] and
    every [e] with [gcd(e, (p - 1) * (q - 1)) <> 1], [attack2] does not
    stop on the [0] that [modInverse] returns: it uses it as the exponent
    and returns the plaintext [c ^ 0 mod n = 1] with [d = 0]. *)
Theorem attack2_missing_inverse past p q e c :
  Z.prime p -> Z.prime q -> 2 < p -> p <= q -> p * q < 2 ^ 52 ->
  Z.gcd e (totient p q) <> 1 ->
  returns (attack2 past e (p * q) c) (1, p, q, 0).
Proof.
  intros Hp Hq H2 Hle Hn Hg.
  assert (Hn9 : 9 <= p * q) by nia.
  assert (Hw : 2 ^ 52 < two64) by reflexivity.
  apply (attack2_compose past e (p * q) c p q 0 1 1).
  - now apply primeFactors_odd_semiprime.
  - now apply modInverse_returns_0.
  - apply modExp_zero_exponent. rewrite to_u64_small; lia.
  - apply attack2_scan_below; lia.
Qed.

Lemma attack2_missing_inverse_witness : returns (attack2 0 2 (3 * 5) 4) (1, 3, 5, 0).
Proof.
  apply (attack2_missing_inverse 0 3 5 2 4);
    [exact Z.prime_3 | exact prime_5 | lia | lia | reflexivity |].
  vm_compute. discriminate.
Defined.

(** ** attack1 without a solution *)

Lemma to_u64_negative c : - two63 <= c < 0 -> to_u64 c = c + two64.
Proof.
  intros Hc. unfold to_u64.
  symmetry. apply (Z.mod_unique _ _ (-1)); unfold two63, two64 in *; lia.
Qed.

(** A run that ends on [-1] has spent one unit of fuel on every candidate
    left, and one on the final test. *)
Lemma attack1_loop_fuel e n c k : forall m0,
  0 <= m0 -> attack1_loop k e n c m0 = Ret (-1) -> n - m0 < Z.of_nat k.
Proof.
  induction k as [|k IH]; intros m0 H0 H; simpl in H; [discriminate |].
  destruct (Z.ltb_spec m0 n) as [Hlt|Hge]; [| lia].
  apply bind_ret_inv in H. destruct H as (r & _ & H).
  destruct (r =? to_u64 c).
  - inversion H. lia.
  - apply IH in H; lia.
Qed.

(** C8, as the code has it.  For every [e >= 0], every [n] whose square
    fits the word (with [e > 0] when [n = 1]) and every [c], if no [m] in
    [[0, n)] has [m ^ e mod n = c] then [attack1] returns the integer
    [-1], and every run that does so went through the whole range: it spent
    more than [n] units of fuel, one per candidate. *)
Theorem attack1_no_solution e n c :
  0 <= e -> n * n < two64 -> (n = 1 -> 0 < e) -> - two63 <= c < two63 ->
  (forall m, 0 <= m < n -> m ^ e mod n <> c) ->
  returns (attack1 e n c) (-1) /\
  forall k, attack1 e n c k = Ret (-1) -> n < Z.of_nat k.
Proof.
  intros He Hnn H1 Hc Hnone.
  split; [| intros k Hk; apply attack1_loop_fuel in Hk; lia].
  unfold attack1.
  destruct (Z.le_gt_cases n 0) as [Hn0|Hn0]; [now apply attack1_loop_end |].
  assert (Hn : n < 2 ^ 32) by (unfold two64 in Hnn; nia).
  assert (Hw : 2 ^ 32 < two63 /\ two64 = 2 * two63) by (split; reflexivity).
  assert (Hval : forall t, 0 <= t < n ->
             returns (modExp (to_u64 t) e (to_u64 n))
                     (if e =? 0 then 1 else t ^ e mod n)).
  { intros t Ht. rewrite !to_u64_small by lia.
    apply modExp_returns; lia. }
  apply (attack1_loop_none e n c (fun t => if e =? 0 then 1 else t ^ e mod n)
           Hval (Z.to_nat n) 0); try lia.
  clear Hval. intros t Ht Heq. cbv beta in Heq.
  {
    assert (Hval : 0 <= (if e =? 0 then 1 else t ^ e mod n) < 2 ^ 32).
    { destruct (e =? 0); [lia |].
      pose proof (Z.mod_pos_bound (t ^ e) n ltac:(lia)). lia. }
    destruct (Z.lt_ge_cases c 0) as [Hneg|Hpos].
    + rewrite to_u64_negative in Heq by lia. lia.
    + rewrite to_u64_small in Heq by lia.
      apply (Hnone t); [lia |].
      destruct (Z.eqb_spec e 0) as [->|Hne]; [| exact Heq].
      rewrite Z.pow_0_r, Z.mod_small; [exact Heq | lia]. }
Qed.

Lemma attack1_no_solution_witness :
  returns (attack1 2 3 2) (-1) /\
  forall k, attack1 2 3 2 k = Ret (-1) -> 3 < Z.of_nat k.
Proof.
  apply (attack1_no_solution 2 3 2); [lia | reflexivity | lia | | ].
  - split; [discriminate | reflexivity].
  - intros m Hm.
    assert (Hcases : m = 0 \/ m = 1 \/ m = 2) by lia.
    destruct Hcases as [-> | [-> | ->]]; vm_compute; discriminate.
Defined.

(** C8 fails as stated at [e = 2], [n = 3], [c = 2]: no square is [2]
    modulo [3], and the call returns the number [-1], the value the claim
    rules out. *)
Lemma attack1_2_3_2_returns_minus_1 :
  (forall m, 0 <= m < 3 -> m ^ 2 mod 3 <> 2) /\
  returns (attack1 2 3 2) (-1).
Proof.
  split.
  - intros m Hm.
    assert (Hcases : m = 0 \/ m = 1 \/ m = 2) by lia.
    destruct Hcases as [-> | [-> | ->]]; vm_compute; discriminate.
  - exists 10%nat. reflexivity.
Qed.

(** ** The closing scan of attack2 *)

Lemma attack2_scan_not_fault ptext n f :
  0 <= ptext < n -> n <= two64 ->
  ~ faults (fun k => attack2_scan k ptext n 0) f.
Proof.
  intros Hp Hn [k Hk].
  apply (faults_not_returns _ f ptext (attack2_scan_stable ptext n 0)).
  - now exists k.
  - now apply attack2_scan_below.
Qed.

(** C10.  For every [n >= 2] (a [long long], so below [2^63]) and every
    [c] and [d], [modExp(c, d, n)] returns a value below [n] and the
    closing scan returns that same value; hence [attack2] and the variant
    that returns [modExp(c, d, n)] directly have the same results and the
    same faults, and [attack2] never returns [-1]. *)
Theorem attack2_scan_redundant past e n c :
  2 <= n < two63 ->
  (forall d, exists v,
      returns (modExp (to_u64 c) d (to_u64 n)) v /\ 0 <= v < n /\
      returns (fun k => attack2_scan k v n 0) v) /\
  (forall r, returns (attack2 past e n c) r <-> returns (attack2_direct past e n c) r) /\
  (forall f, faults (attack2 past e n c) f <-> faults (attack2_direct past e n c) f) /\
  (forall p q d, ~ returns (attack2 past e n c) (-1, p, q, d)).
Proof.
  intros Hn.
  assert (Hw : two63 < two64) by reflexivity.
  assert (Hu : to_u64 n = n) by (apply to_u64_small; lia).
  assert (Hscan : forall d k v,
             modExp (to_u64 c) d (to_u64 n) k = Ret v ->
             0 <= v < n /\ returns (fun j => attack2_scan j v n 0) v).
  { intros d k v Hv. rewrite Hu in Hv.
    pose proof (modExp_bound (to_u64 c) d n k v ltac:(lia) Hv) as Hb.
    split; [exact Hb | apply attack2_scan_below; lia]. }
  assert (Hfwd : forall m p q d, returns (attack2 past e n c) (m, p, q, d) ->
             returns (attack2_direct past e n c) (m, p, q, d) /\ m <> -1).
  { intros m p q d [k Hk].
    destruct (attack2_inv past _ _ _ _ _ _ _ _ Hk) as (ptext & Hpf & Hinv & Hexp & Hsc).
    destruct (Hscan d k ptext Hexp) as [Hb Hfound].
    assert (m = ptext).
    { apply (returns_unique _ m ptext (attack2_scan_stable ptext n 0));
        [now exists k | exact Hfound]. }
    subst m. split; [| lia].
    apply attack2_direct_compose; now exists k. }
  split; [| split; [| split]].
  - intros d.
    destruct (modExp_total (to_u64 c) d (to_u64 n) ltac:(lia)) as [v [k Hv]].
    exists v. destruct (Hscan d k v Hv) as [Hb Hfound].
    split; [now exists k | split; assumption].
  - intros [[[m p] q] d]. split.
    + intros H. now apply Hfwd.
    + intros [k Hk].
      destruct (attack2_direct_inv past _ _ _ _ _ _ _ _ Hk) as (Hpf & Hinv & Hexp).
      destruct (Hscan d k m Hexp) as [Hb Hfound].
      apply (attack2_compose past e n c p q d m m); try (now exists k). exact Hfound.
  - intros f. split; intros [k Hk].
    + exists k. revert Hk. unfold attack2, attack2_direct.
      destruct (primeFactors past n k) as [[p q]| |]; simpl; try congruence.
      destruct (modInverse e (totient p q) k) as [d| |]; simpl; try congruence.
      destruct (modExp (to_u64 c) d (to_u64 n) k) as [v| |] eqn:Hexp;
        simpl; try congruence.
      destruct (Hscan d k v Hexp) as [Hb _].
      destruct (attack2_scan k v n 0) as [m|f'|] eqn:Hsc; simpl; try congruence.
      intros Hf. exfalso.
      apply (attack2_scan_not_fault v n f' Hb ltac:(lia)). now exists k.
    + exists k. revert Hk. unfold attack2, attack2_direct.
      destruct (primeFactors past n k) as [[p q]| |]; simpl; try congruence.
      destruct (modInverse e (totient p q) k) as [d| |]; simpl; try congruence.
      destruct (modExp (to_u64 c) d (to_u64 n) k) as [v| |]; simpl; congruence.
  - intros p q d H. now destruct (Hfwd _ _ _ _ H) as [_ Hne].
Qed.

Lemma attack2_scan_redundant_witness :
  (forall d, exists v,
      returns (modExp (to_u64 2790) d (to_u64 3233)) v /\ 0 <= v < 3233 /\
      returns (fun k => attack2_scan k v 3233 0) v) /\
  (forall r, returns (attack2 0 17 3233 2790) r <->
             returns (attack2_direct 0 17 3233 2790) r) /\
  (forall f, faults (attack2 0 17 3233 2790) f <->
             faults (attack2_direct 0 17 3233 2790) f) /\
  (forall p q d, ~ returns (attack2 0 17 3233 2790) (-1, p, q, d)).
Proof.
  apply (attack2_scan_redundant 0 17 3233 2790).
  split; [lia | reflexivity].
Defined.

(** ** Round trip *)

Lemma totient_comm p q : totient p q = totient q p.
Proof. unfold totient. ring. Qed.

(** The round trip on [n = p * q] with odd primes [p < q]. *)
Lemma roundtrip_ordered past p q e m :
  Z.prime p -> Z.prime q -> 2 < p -> p < q ->
  (p * q) * (p * q) < two64 ->
  0 <= e -> Z.gcd e (totient p q) = 1 -> 0 <= m < p * q ->
  returns (attack1 e (p * q) (m ^ e mod (p * q))) m /\
  exists d,
    returns (attack2 past e (p * q) (m ^ e mod (p * q))) (m, p, q, d) /\
    (e * d) mod totient p q = 1 /\ 0 <= d < totient p q.
Proof.
  intros Hp Hq H2 Hlt Hnn He Hg Hm.
  set (n := p * q) in *.
  assert (Hn9 : 9 <= n) by (unfold n; nia).
  assert (Hn : n < 2 ^ 32) by (unfold two64 in Hnn; nia).
  assert (Hw : 2 ^ 32 < two64) by reflexivity.
  assert (Hphi : 2 <= totient p q) by (unfold totient; nia).
  destruct (modInverse_inverse e (totient p q) He Hphi Hg)
    as (d & Hrun & Hinv & Hd).
  set (c := m ^ e mod n).
  assert (Hc : 0 <= c < n) by (apply Z.mod_pos_bound; lia).
  split.
  - unfold attack1.
    apply (attack1_loop_first e n c (fun t => t ^ e mod n)) with (j := Z.to_nat m);
      try lia.
    + intros t Ht. rewrite !to_u64_small by lia.
      apply modExp_correct; lia.
    + rewrite to_u64_small by lia. reflexivity.
    + intros t Ht Heq. cbv beta in Heq. rewrite to_u64_small in Heq by lia.
      assert (t = m); [| lia].
      apply (rsa_injective p q e d t m); try assumption; try lia.
  - exists d. split; [| split; [exact Hinv | lia]].
    apply (attack2_compose past e n c p q d m m).
    + apply primeFactors_odd_semiprime; try assumption; lia.
    + now exists (S (Z.to_nat (totient p q))).
    + rewrite !to_u64_small by lia.
      assert (Hdec : c ^ d mod n = m)
        by (apply rsa_decrypt; try assumption; lia).
      pose proof (modExp_correct c d n ltac:(lia) ltac:(lia) Hnn ltac:(lia)) as Hx.
      now rewrite Hdec in Hx.
    + apply attack2_scan_below; lia.
Qed.

(** C1, as the code has it.  For every [n = p * q] with distinct odd primes
    whose square fits the 64-bit word, every [e >= 0] coprime to
    [(p - 1) * (q - 1)] and every plaintext [0 <= m < n], on
    [c = m ^ e mod n] the brute-force attack returns [m] and the factoring
    attack returns [m] with the two primes, smaller first, and the inverse
    [d] of [e]. *)
Theorem roundtrip_odd_semiprime past p q e m :
  Z.prime p -> Z.prime q -> p <> q -> 2 < p -> 2 < q ->
  (p * q) * (p * q) < two64 ->
  0 <= e -> Z.gcd e (totient p q) = 1 -> 0 <= m < p * q ->
  returns (attack1 e (p * q) (m ^ e mod (p * q))) m /\
  exists d,
    returns (attack2 past e (p * q) (m ^ e mod (p * q)))
            (m, Z.min p q, Z.max p q, d) /\
    (e * d) mod totient p q = 1 /\ 0 <= d < totient p q.
Proof.
  intros Hp Hq Hne H2p H2q Hnn He Hg Hm.
  destruct (Z.lt_ge_cases p q) as [Hlt|Hge].
  - rewrite Z.min_l, Z.max_r by lia.
    now apply roundtrip_ordered.
  - rewrite Z.min_r, Z.max_l by lia.
    rewrite (totient_comm p q), (Z.mul_comm p q) in *.
    apply roundtrip_ordered; try assumption; lia.
Qed.

Lemma roundtrip_odd_semiprime_witness :
  returns (attack1 17 (61 * 53) (65 ^ 17 mod (61 * 53))) 65 /\
  exists d,
    returns (attack2 0 17 (61 * 53) (65 ^ 17 mod (61 * 53)))
            (65, Z.min 61 53, Z.max 61 53, d) /\
    (17 * d) mod totient 61 53 = 1 /\ 0 <= d < totient 61 53.
Proof.
  apply (roundtrip_odd_semiprime 0 61 53 17 65);
    [exact prime_61 | exact prime_53 | lia | lia | lia
    | reflexivity | lia | reflexivity | lia].
Defined.

(** C1 fails as stated on [n = 65537 * 65539], a product of two distinct
    odd primes just above [2^32], with [e = 5] and [m = n - 1], for which
    [c = m ^ 5 mod n = n - 1]: the square [(n - 1) * (n - 1)] computed by
    [modExp] exceeds the 64-bit word and wraps, and [attack2] returns
    [2956242996], not [m]. *)
Lemma roundtrip_wide_modulus :
  Z.prime 65537 /\ Z.prime 65539 /\ 65537 <> 65539 /\
  Z.gcd 5 (totient 65537 65539) = 1 /\
  0 <= 4295229442 < 65537 * 65539 /\
  4295229442 ^ 5 mod (65537 * 65539) = 4295229442 /\
  forall past,
    returns (attack2 past 5 (65537 * 65539) 4295229442)
            (2956242996, 65537, 65539, 2577059021) /\
    forall p q d,
      ~ returns (attack2 past 5 (65537 * 65539) 4295229442) (4295229442, p, q, d).
Proof.
  split; [exact prime_65537 |]. split; [exact prime_65539 |].
  split; [discriminate |]. split; [vm_compute; reflexivity |].
  split; [split; [discriminate | reflexivity] |].
  split; [vm_compute; reflexivity |].
  intros past.
  assert (Hrun : returns (attack2 past 5 (65537 * 65539) 4295229442)
                         (2956242996, 65537, 65539, 2577059021)).
  { apply (attack2_compose past 5 (65537 * 65539) 4295229442
             65537 65539 2577059021 2956242996 2956242996).
    - apply primeFactors_odd_semiprime;
        [exact prime_65537 | exact prime_65539 | lia | lia].
    - exists 100%nat. vm_compute. reflexivity.
    - exists 100%nat. vm_compute. reflexivity.
    - apply attack2_scan_below; [lia | unfold two64; lia]. }
  split; [exact Hrun |].
  intros p q d H.
  pose proof (returns_unique _ _ _ (attack2_stable past 5 (65537 * 65539) 4295229442)
                H Hrun) as Heq.
  discriminate Heq.
Qed.

(** On an even semiprime the vector has one element and the result of
    [attack2] depends on what the read of [res[1]] finds past the end.  On
    [10 = 2 * 5] with [e = 3] and [m = 2], so [c = 8]: when the read yields
    [0] the totient is [-4], [modInverse] returns [0] and the plaintext
    returned is [1]; when it happens to yield [2] the plaintext is [2]. *)
Lemma attack2_even_semiprime_read :
  returns (factor_sequence (2 * 5)) [5] /\
  returns (attack2 0 3 (2 * 5) (2 ^ 3 mod (2 * 5))) (1, 5, 0, 0) /\
  returns (attack2 2 3 (2 * 5) (2 ^ 3 mod (2 * 5))) (2, 5, 2, 3).
Proof.
  split; [| split]; exists 10%nat; vm_compute; reflexivity.
Qed.

(** * Further properties of the code *)

(** ** The vector collected by primeFactors *)

(** ** Lists of factors *)

Lemma product_app l1 l2 : product (l1 ++ l2) = product l1 * product l2.
Proof.
  induction l1 as [|a l1 IH]; simpl.
  - now destruct (product l2).
  - rewrite IH. ring.
Qed.

Lemma product_repeat i (j : nat) : product (repeat i j) = i ^ Z.of_nat j.
Proof.
  induction j as [|j IH].
  - reflexivity.
  - rewrite Nat2Z.inj_succ, Z.pow_succ_r by lia. simpl. now rewrite IH.
Qed.

Lemma product_pos l : Forall odd_prime l -> 1 <= product l.
Proof.
  induction l as [|a l IH]; intros Hall; simpl; [lia |].
  pose proof (Forall_inv Hall) as [_ Ha].
  specialize (IH (Forall_inv_tail Hall)). nia.
Qed.

Lemma sorted_snoc l v :
  StronglySorted Z.le l -> Forall (fun p => p <= v) l ->
  StronglySorted Z.le (l ++ [v]).
Proof.
  induction l as [|a l IH]; intros Hs Hf; simpl.
  - constructor; constructor.
  - apply StronglySorted_inv in Hs. destruct Hs as [Hs Ha].
    inversion Hf; subst. constructor.
    + now apply IH.
    + apply Forall_app. split; [exact Ha |]. constructor; [assumption | constructor].
Qed.

Lemma repeat_snoc {A : Type} (a : A) (j : nat) : repeat a j ++ [a] = repeat a (S j).
Proof.
  induction j as [|j IH]; simpl; [reflexivity | now rewrite IH].
Qed.

(** ** The halving loop *)

Lemma halve_loop_pos (m : nat) : forall n,
  0 < n < Z.of_nat m ->
  exists k x, 0 <= k /\ returns (fun f => halve_loop f n) x /\
              n = 2 ^ k * x /\ Z.odd x = true /\ 0 < x.
Proof.
  induction m as [|m IH]; intros n Hn; [lia |].
  destruct (Z.odd n) eqn:Hodd.
  - exists 0, n. split; [lia |]. split; [now apply halve_loop_odd, odd_rem_2 |].
    split; [rewrite Z.pow_0_r; lia | split; [exact Hodd | lia]].
  - assert (Hr : Z.rem n 2 = 0).
    { rewrite Z.rem_mod_nonneg by lia. rewrite Zmod_odd, Hodd. reflexivity. }
    assert (Hq : n = 2 * Z.quot n 2).
    { pose proof (Z.quot_rem' n 2). lia. }
    destruct (IH (Z.quot n 2)) as (k & x & Hk & Hrun & Heq & Hx & Hpos); [lia |].
    exists (k + 1), x. split; [lia |]. split; [now apply halve_loop_even |].
    split; [| split; assumption].
    rewrite Z.pow_add_r, Z.pow_1_r by lia. lia.
Qed.

Lemma halve_loop_neg (m : nat) : forall n,
  - Z.of_nat m < n < 0 ->
  exists x, returns (fun f => halve_loop f n) x /\ x < 0.
Proof.
  induction m as [|m IH]; intros n Hn; [lia |].
  destruct (Z.eq_dec (Z.rem n 2) 0) as [Hr|Hr].
  - assert (Hq : n = 2 * Z.quot n 2).
    { pose proof (Z.quot_rem' n 2). lia. }
    destruct (IH (Z.quot n 2)) as (x & Hrun & Hx); [lia |].
    exists x. split; [now apply halve_loop_even | exact Hx].
  - exists n. split; [now apply halve_loop_odd | lia].
Qed.

Lemma halve_loop_zero k : halve_loop k 0 = Timeout.
Proof. induction k as [|k IH]; [reflexivity | exact IH]. Qed.

(** ** Dividing one trial divisor out *)

Lemma divide_out_spec (m : nat) : forall i x res,
  2 <= i -> 1 <= x < Z.of_nat m ->
  exists (j : nat) x',
    returns (fun f => divide_out f i x res) (x', res ++ repeat i j) /\
    x = i ^ Z.of_nat j * x' /\ 1 <= x' /\ ~ (i | x').
Proof.
  induction m as [|m IH]; intros i x res Hi Hx; [lia |].
  destruct (Z.eq_dec (Z.rem x i) 0) as [Hr|Hr].
  - assert (Hq : x = i * Z.quot x i).
    { pose proof (Z.quot_rem' x i). lia. }
    assert (Hq1 : 1 <= Z.quot x i < x).
    { assert (0 < Z.quot x i) by nia. nia. }
    destruct (IH i (Z.quot x i) (res ++ [i]) Hi) as (j & x' & Hrun & Heq & Hx' & Hnd);
      [lia |].
    exists (S j), x'. split; [| split; [| split; assumption]].
    + apply divide_out_more; [exact Hr |].
      rewrite <- app_assoc in Hrun. exact Hrun.
    + rewrite Nat2Z.inj_succ, Z.pow_succ_r by lia. nia.
  - exists 0%nat, x. rewrite app_nil_r. split; [now apply divide_out_done |].
    split; [change (Z.of_nat 0) with 0; rewrite Z.pow_0_r; lia |]. split; [lia |].
    intros Hd. apply Hr. apply Z.rem_divide; [lia | exact Hd].
Qed.

(** ** The invariant of trial division *)

Lemma sorted_app_repeat l i (j : nat) :
  StronglySorted Z.le l -> Forall (fun p => p <= i) l ->
  StronglySorted Z.le (l ++ repeat i j).
Proof.
  intros Hs Hf. induction j as [|j IH].
  - now rewrite app_nil_r.
  - rewrite <- repeat_snoc, app_assoc. apply sorted_snoc; [exact IH |].
    apply Forall_app. split; [exact Hf |].
    apply Forall_forall. intros y Hy. apply repeat_spec in Hy. lia.
Qed.

Lemma trial_inv_step x0 i x res (j : nat) x' :
  trial_inv x0 i x res ->
  x = i ^ Z.of_nat j * x' -> 1 <= x' -> ~ (i | x') ->
  trial_inv x0 (i + 2) x' (res ++ repeat i j).
Proof.
  intros (Hi & Hoi & Hx & Hox & Hnd & Hprod & Hall & Hsort) Heq Hx' Hni.
  assert (Hdx : (x' | x)) by (exists (i ^ Z.of_nat j); exact Heq).
  unfold trial_inv.
  split; [lia |].
  split; [rewrite Z.odd_add, Hoi; reflexivity |].
  split; [exact Hx' |].
  split.
  { rewrite Heq, Z.odd_mul in Hox. now apply andb_true_iff in Hox. }
  split.
  { intros d Hd Hdiv.
    assert (Hdx' : (d | x)) by (now apply Z.divide_trans with x').
    destruct (Z.lt_ge_cases d i) as [Hlt|Hge]; [now apply (Hnd d); [lia |] |].
    destruct (Z.eq_dec d i) as [->|Hne]; [contradiction |].
    assert (d = i + 1) by lia. subst d.
    apply (Hnd 2); [lia |].
    apply Z.divide_trans with (i + 1); [| exact Hdx'].
    assert (He : Z.even (i + 1) = true).
    { rewrite Z.even_add, <- Z.negb_odd, Hoi. reflexivity. }
    apply Z.even_spec in He. destruct He as [h Hh]. exists h. lia. }
  split.
  { rewrite product_app, product_repeat, <- Hprod, Heq. ring. }
  split.
  { apply Forall_app. split.
    - eapply Forall_impl; [| exact Hall]. intros p [Hp Hlt]. split; [exact Hp | lia].
    - apply Forall_forall. intros p Hp.
      assert (Hj : (0 < j)%nat) by (destruct j; [contradiction | lia]).
      apply repeat_spec in Hp. subst p.
      split; [| lia]. split; [| lia]. split; [lia |].
      intros d Hd Hdi. apply (Hnd d Hd).
      apply Z.divide_trans with i; [exact Hdi |].
      exists (i ^ Z.of_nat (j - 1) * x'). rewrite Heq.
      replace (Z.of_nat j) with (Z.succ (Z.of_nat (j - 1))) by lia.
      rewrite Z.pow_succ_r by lia. ring. }
  apply sorted_app_repeat; [exact Hsort |].
  eapply Forall_impl; [| exact Hall]. intros p [_ Hlt]. lia.
Qed.

(** Past the square root, a number without small divisors is [1] or a
    prime that is at least the current trial divisor. *)
Lemma trial_exit_prime i x :
  no_divisor_below i x -> 1 <= x -> Z.sqrt x < i ->
  x = 1 \/ (Z.prime x /\ i <= x).
Proof.
  intros Hnd Hx Hs.
  destruct (Z.eq_dec x 1) as [->|Hne]; [now left | right].
  assert (Hix : i <= x).
  { destruct (Z.le_gt_cases i x) as [H|H]; [exact H |].
    exfalso. apply (Hnd x); [lia | apply Z.divide_refl]. }
  split; [| exact Hix]. split; [lia |].
  intros d Hd [k Hk].
  pose proof (Z.sqrt_spec x ltac:(lia)) as [_ Hhi].
  assert (Hk1 : 1 < k < x) by nia.
  destruct (Z.le_gt_cases d (Z.sqrt x)) as [Hle|Hgt].
  - apply (Hnd d); [lia | exists k; exact Hk].
  - destruct (Z.le_gt_cases k (Z.sqrt x)) as [Hle'|Hgt'].
    + apply (Hnd k); [lia | exists d; lia].
    + unfold Z.succ in Hhi. pose proof (Z.sqrt_nonneg x) as Hs0.
      assert ((Z.sqrt x + 1) * (Z.sqrt x + 1) <= k * d)
        by (apply Z.mul_le_mono_nonneg; lia).
      lia.
Qed.

Lemma trial_loop_spec x0 (m : nat) : forall i x res,
  trial_inv x0 i x res -> Z.sqrt x + 2 - i < Z.of_nat m ->
  exists i' x' res',
    returns (fun f => trial_loop f i x res) (x', res') /\
    trial_inv x0 i' x' res' /\ Z.sqrt x' < i'.
Proof.
  induction m as [|m IH]; intros i x res Hinv Hm.
  - exists i, x, res. split; [apply trial_loop_exit; lia |]. split; [exact Hinv | lia].
  - destruct (Z.le_gt_cases i (Z.sqrt x)) as [Hle|Hgt].
    + pose proof Hinv as (Hi & _ & Hx & _).
      destruct (divide_out_spec (S (Z.to_nat x)) i x res ltac:(lia) ltac:(lia))
        as (j & x' & Hrun & Heq & Hx' & Hni).
      pose proof (trial_inv_step x0 i x res j x' Hinv Heq Hx' Hni) as Hinv'.
      assert (Hxx : x' <= x).
      { rewrite Heq. pose proof (Z.pow_pos_nonneg i (Z.of_nat j) ltac:(lia) ltac:(lia)). nia. }
      pose proof (Z.sqrt_le_mono x' x Hxx) as Hsq.
      destruct (IH (i + 2) x' (res ++ repeat i j) Hinv' ltac:(lia))
        as (i' & x'' & res' & Hrun' & Hinv'' & Hs).
      exists i', x'', res'. split; [| split; assumption].
      now apply (trial_loop_iter i x res x' (res ++ repeat i j)).
    + exists i, x, res. split; [now apply trial_loop_exit |]. split; [exact Hinv | lia].
Qed.

Lemma trial_inv_init x : 1 <= x -> Z.odd x = true -> trial_inv x 3 x [].
Proof.
  intros Hx Ho. unfold trial_inv.
  split; [lia |]. split; [reflexivity |]. split; [exact Hx |]. split; [exact Ho |].
  split.
  { intros d Hd Hdiv. assert (d = 2) by lia. subst d.
    destruct Hdiv as [h Hh]. subst x.
    rewrite Z.odd_mul in Ho. simpl in Ho. now rewrite andb_false_r in Ho. }
  split; [change (product []) with 1; lia |]. split; constructor.
Qed.

(** The vector collected on a positive [n] is the ascending list of the odd
    prime factors of [n], each as many times as it divides [n]. *)
Lemma factor_sequence_general n :
  0 < n ->
  exists k res,
    0 <= k /\ returns (factor_sequence n) res /\
    n = 2 ^ k * product res /\
    Forall odd_prime res /\ StronglySorted Z.le res.
Proof.
  intros Hn.
  destruct (halve_loop_pos (S (Z.to_nat n)) n ltac:(lia))
    as (k & x & Hk & Hhalve & Heq & Hox & Hx).
  destruct (trial_loop_spec x (S (Z.to_nat (Z.sqrt x))) 3 x []
              (trial_inv_init x ltac:(lia) Hox) ltac:(lia))
    as (i' & x' & res' & Hrun & Hinv & Hs).
  destruct Hinv as (Hi & _ & Hx' & Hox' & Hnd & Hprod & Hall & Hsort).
  exists k, (if 2 <? x' then res' ++ [x'] else res').
  split; [exact Hk |]. split.
  { unfold factor_sequence.
    apply (returns_bind (fun f => halve_loop f n) _ x);
      [apply halve_loop_stable | | exact Hhalve |].
    - apply (stable_bind (fun f => trial_loop f 3 x [])); [apply trial_loop_stable |].
      intros [x2 r]. apply stable_const.
    - destruct Hrun as [f Hf]. exists f. now rewrite Hf. }
  assert (Hall' : Forall odd_prime res').
  { eapply Forall_impl; [| exact Hall]. now intros p [Hp _]. }
  destruct (trial_exit_prime i' x' Hnd Hx' Hs) as [->|[Hp Hix]].
  - simpl. split; [| split; assumption]. rewrite Heq, <- Hprod. ring.
  - destruct (Z.ltb_spec 2 x') as [_|Hle]; [| lia].
    split; [| split].
    + rewrite product_app. simpl. rewrite Heq, <- Hprod. ring.
    + apply Forall_app. split; [exact Hall' |].
      constructor; [split; [exact Hp | lia] | constructor].
    + apply sorted_snoc; [exact Hsort |].
      eapply Forall_impl; [| exact Hall]. intros p [_ Hlt]. lia.
Qed.

(** X1.  On every positive [n] below [2^52] the vector that [primeFactors]
    collects is the ascending list of the odd prime factors of [n], each as
    many times as it divides [n]: its elements are odd primes, it is sorted,
    and its product is [n] without its factors [2]. *)
Theorem factor_sequence_spec n :
  0 < n < 2 ^ 52 ->
  exists k res,
    0 <= k /\ returns (factor_sequence n) res /\
    n = 2 ^ k * product res /\
    Forall odd_prime res /\ StronglySorted Z.le res.
Proof.
  intros [Hn _]. now apply factor_sequence_general.
Qed.

Lemma factor_sequence_spec_witness :
  exists k res,
    0 <= k /\ returns (factor_sequence 300) res /\
    300 = 2 ^ k * product res /\
    Forall odd_prime res /\ StronglySorted Z.le res.
Proof.
  apply (factor_sequence_spec 300). split; [lia | reflexivity].
Defined.

(** ** What primeFactors returns in general *)

Lemma prime_in_product r l :
  Z.prime r -> Forall odd_prime l -> (r | product l) -> In r l.
Proof.
  intros Hr. induction l as [|a l IH]; intros Hall Hd.
  - simpl in Hd. apply Z.divide_1_r_nonneg in Hd; [| destruct Hr; lia].
    destruct Hr; lia.
  - pose proof (Forall_inv Hall) as [Ha _].
    pose proof (Forall_inv_tail Hall) as Hl.
    simpl in Hd. apply Z.divide_prime_mul in Hd; [| exact Hr].
    destruct Hd as [Hd|Hd].
    + left. symmetry. now apply Z.divide_prime_prime.
    + right. now apply IH.
Qed.

Lemma odd_prime_in_factors r k l :
  odd_prime r -> 0 <= k -> Forall odd_prime l ->
  (r | 2 ^ k * product l) -> In r l.
Proof.
  intros [Hr H2] Hk Hall Hd.
  apply Z.divide_prime_mul in Hd; [| exact Hr].
  destruct Hd as [Hd|Hd]; [| now apply prime_in_product].
  apply Z.divide_prime_pp in Hd; try assumption; [lia | exact Z.prime_2].
Qed.

Lemma odd_prime_not_in_power_of_two r k :
  odd_prime r -> 0 <= k -> ~ (r | 2 ^ k).
Proof.
  intros [Hr H2] Hk Hd.
  apply Z.divide_prime_pp in Hd; try assumption; [lia | exact Z.prime_2].
Qed.

Lemma no_pair_in_single_factor k r a b :
  0 <= k -> odd_prime r -> odd_prime a -> odd_prime b ->
  ~ (a * b | 2 ^ k * r).
Proof.
  intros Hk Hr Ha Hb Hd.
  assert (Har : a = r).
  { assert (Hda : (a | 2 ^ k * r))
      by (apply Z.divide_trans with (a * b); [exists b; ring | exact Hd]).
    apply Z.divide_prime_mul in Hda; [| apply Ha].
    destruct Hda as [Hda|Hda].
    - exfalso. now apply (odd_prime_not_in_power_of_two a k).
    - apply Z.divide_prime_prime; [apply Ha | apply Hr | exact Hda]. }
  subst a.
  rewrite (Z.mul_comm (2 ^ k) r) in Hd.
  apply Z.mul_divide_cancel_l in Hd; [| destruct Hr; lia].
  now apply (odd_prime_not_in_power_of_two b k).
Qed.

(** What a vector of at least two elements says about [n]. *)
Lemma two_smallest_props n k p q rest :
  0 <= k -> n = 2 ^ k * product (p :: q :: rest) ->
  Forall odd_prime (p :: q :: rest) -> StronglySorted Z.le (p :: q :: rest) ->
  odd_prime p /\ odd_prime q /\ p <= q /\ (p * q | n) /\
  (forall r, odd_prime r -> (r | n) -> p <= r) /\
  (forall r, odd_prime r -> (p * r | n) -> q <= r).
Proof.
  intros Hk Heq Hall Hsort.
  pose proof (Forall_inv Hall) as Hp.
  pose proof (Forall_inv (Forall_inv_tail Hall)) as Hq.
  apply StronglySorted_inv in Hsort. destruct Hsort as [Hsort' Hle].
  apply StronglySorted_inv in Hsort'. destruct Hsort' as [_ Hle'].
  split; [exact Hp |]. split; [exact Hq |].
  split; [exact (Forall_inv Hle) |].
  split; [exists (2 ^ k * product rest); rewrite Heq; simpl; ring |].
  split.
  - intros r Hr Hd. rewrite Heq in Hd.
    apply odd_prime_in_factors in Hd; try assumption.
    destruct Hd as [<-|Hin]; [lia |].
    rewrite Forall_forall in Hle. now apply Hle.
  - intros r Hr Hd. rewrite Heq in Hd.
    replace (2 ^ k * product (p :: q :: rest))
      with (p * (2 ^ k * product (q :: rest))) in Hd by (simpl; ring).
    apply Z.mul_divide_cancel_l in Hd; [| destruct Hp; lia].
    apply odd_prime_in_factors in Hd;
      [| exact Hr | exact Hk | exact (Forall_inv_tail Hall)].
    destruct Hd as [<-|Hin]; [lia |].
    rewrite Forall_forall in Hle'. now apply Hle'.
Qed.

(** When a product of two odd primes divides [n], at least two factors are
    collected. *)
Lemma factor_sequence_two n :
  0 < n -> (exists a b, odd_prime a /\ odd_prime b /\ (a * b | n)) ->
  exists k p q rest,
    0 <= k /\ returns (factor_sequence n) (p :: q :: rest) /\
    n = 2 ^ k * product (p :: q :: rest) /\
    Forall odd_prime (p :: q :: rest) /\ StronglySorted Z.le (p :: q :: rest).
Proof.
  intros Hn (a & b & Ha & Hb & Hd).
  destruct (factor_sequence_general n Hn) as (k & res & Hk & Hrun & Heq & Hall & Hsort).
  destruct res as [|p [|q rest]].
  - exfalso. rewrite Heq in Hd.
    assert (Hda : (a | 2 ^ k * product []))
      by (apply Z.divide_trans with (a * b); [exists b; ring | exact Hd]).
    now apply odd_prime_in_factors in Hda.
  - exfalso. rewrite Heq in Hd. simpl in Hd. rewrite Z.mul_1_r in Hd.
    now apply (no_pair_in_single_factor k p a b Hk (Forall_inv Hall) Ha Hb).
  - now exists k, p, q, rest.
Qed.

(** ** More than two collected factors *)

(** C6, as the code has it.  The factorizer has no malformed-modulus
    signal.  For every positive [n] below [2^52] whose collected factor
    sequence has more than two elements, it returns a pair all the same,
    whatever lies past the vector: the two smallest odd prime factors
    [p <= q] of [n], whose product divides [n] and is smaller than [n]. *)
Theorem primeFactors_more_than_two n res :
  0 < n < 2 ^ 52 ->
  returns (factor_sequence n) res -> (2 < length res)%nat ->
  exists p q,
    (forall past, returns (primeFactors past n) (p, q)) /\
    odd_prime p /\ odd_prime q /\ p <= q /\
    (p * q | n) /\ p * q < n /\
    (forall r, odd_prime r -> (r | n) -> p <= r) /\
    (forall r, odd_prime r -> (p * r | n) -> q <= r).
Proof.
  intros [Hn _] Hres Hlen.
  destruct (factor_sequence_general n Hn) as (k & res' & Hk & Hrun & Heq & Hall & Hsort).
  assert (res' = res)
    by (apply (returns_unique _ _ _ (factor_sequence_stable n) Hrun Hres)).
  subst res'.
  destruct res as [|p [|q [|t rest]]]; simpl in Hlen; try lia.
  destruct (two_smallest_props n k p q (t :: rest) Hk Heq Hall Hsort)
    as (Hp & Hq & Hle & Hd & Hleast & Hnext).
  exists p, q.
  split.
  { intros past.
    now apply (primeFactors_of_sequence past n (p :: q :: t :: rest) p q (t :: rest)). }
  split; [exact Hp |]. split; [exact Hq |]. split; [exact Hle |].
  split; [exact Hd |]. split; [| split; assumption].
  pose proof (Forall_inv (Forall_inv_tail (Forall_inv_tail Hall))) as [_ Ht].
  pose proof (product_pos rest
                (Forall_inv_tail (Forall_inv_tail (Forall_inv_tail Hall)))) as Hrest.
  pose proof (Z.pow_pos_nonneg 2 k ltac:(lia) Hk) as Hpow.
  destruct Hp as [_ Hp3]. destruct Hq as [_ Hq3].
  rewrite Heq. simpl.
  assert (Hpq : 0 < p * q) by nia.
  assert (Hfac : 3 <= 2 ^ k * (t * product rest)) by nia.
  replace (2 ^ k * (p * (q * (t * product rest))))
    with (p * q * (2 ^ k * (t * product rest))) by ring.
  nia.
Qed.

Lemma primeFactors_more_than_two_witness :
  exists p q,
    (forall past, returns (primeFactors past 105) (p, q)) /\
    odd_prime p /\ odd_prime q /\ p <= q /\
    (p * q | 105) /\ p * q < 105 /\
    (forall r, odd_prime r -> (r | 105) -> p <= r) /\
    (forall r, odd_prime r -> (p * r | 105) -> q <= r).
Proof.
  apply (primeFactors_more_than_two 105 [3; 5; 7]).
  - split; [lia | reflexivity].
  - exists 4%nat. reflexivity.
  - simpl. lia.
Defined.

(** C6 fails as stated at [n = 105 = 3 * 5 * 7]: three factors are
    collected, so the sequence does not have exactly two elements, and the
    factorizer returns the pair [(3, 5)] instead of signalling anything. *)
Lemma primeFactors_105 :
  returns (factor_sequence 105) [3; 5; 7] /\
  length [3; 5; 7] <> 2%nat /\
  forall past, returns (primeFactors past 105) (3, 5).
Proof.
  split; [exists 4%nat; reflexivity |].
  split; [discriminate |]. intros past. exists 4%nat. reflexivity.
Qed.

(** X2.  For every positive [n] below [2^52] that a product of two odd
    primes divides, [primeFactors] returns, whatever lies past the vector,
    the two smallest odd prime factors of [n]: odd primes [p <= q] whose
    product divides [n], [p] the least odd prime factor of [n] and [q] the
    least odd prime factor of [n / p]. *)
Theorem primeFactors_two_smallest n :
  0 < n < 2 ^ 52 ->
  (exists a b, odd_prime a /\ odd_prime b /\ (a * b | n)) ->
  exists p q,
    (forall past, returns (primeFactors past n) (p, q)) /\
    odd_prime p /\ odd_prime q /\ p <= q /\ (p * q | n) /\
    (forall r, odd_prime r -> (r | n) -> p <= r) /\
    (forall r, odd_prime r -> (p * r | n) -> q <= r).
Proof.
  intros [Hn _] Hab.
  destruct (factor_sequence_two n Hn Hab)
    as (k & p & q & rest & Hk & Hrun & Heq & Hall & Hsort).
  exists p, q. split.
  - intros past. now apply (primeFactors_of_sequence past n (p :: q :: rest) p q rest).
  - now apply (two_smallest_props n k p q rest).
Qed.

Lemma primeFactors_two_smallest_witness :
  exists p q,
    (forall past, returns (primeFactors past 525) (p, q)) /\
    odd_prime p /\ odd_prime q /\ p <= q /\ (p * q | 525) /\
    (forall r, odd_prime r -> (r | 525) -> p <= r) /\
    (forall r, odd_prime r -> (p * r | 525) -> q <= r).
Proof.
  apply (primeFactors_two_smallest 525).
  - split; [lia | reflexivity].
  - exists 5, 7. split; [split; [exact prime_5 | lia] |].
    split; [split; [exact prime_7 | lia] |]. exists 15. reflexivity.
Defined.

(** X3.  Which reads [primeFactors] makes on a positive [n] below [2^52]:
    the vector is empty exactly when [n] is a power of two, and then the
    read of [res[0]] stops the program; it has one element [r] exactly when
    [n] is a power of two times one odd prime, and then the read of
    [res[1]] goes past the end and the pair is [(r, past)]; it has at least
    two elements, both reads staying within it, exactly when a product of
    two odd primes divides [n]. *)
Theorem primeFactors_reads n :
  0 < n < 2 ^ 52 ->
  exists res,
    returns (factor_sequence n) res /\
    (res = [] <-> exists k, 0 <= k /\ n = 2 ^ k) /\
    ((exists r, res = [r]) <->
     exists k r, 0 <= k /\ odd_prime r /\ n = 2 ^ k * r) /\
    ((2 <= length res)%nat <->
     exists p q, odd_prime p /\ odd_prime q /\ (p * q | n)) /\
    (res = [] -> forall past, faults (primeFactors past n) IndexOutOfRange) /\
    (forall r, res = [r] -> forall past, returns (primeFactors past n) (r, past)).
Proof.
  intros [Hn _].
  destruct (factor_sequence_general n Hn) as (k & res & Hk & Hrun & Heq & Hall & Hsort).
  exists res. split; [exact Hrun |].
  assert (Hpow : forall j, 0 <= j -> n = 2 ^ j -> res = []).
  { intros j Hj Hnj. destruct res as [|a rest]; [reflexivity | exfalso].
    apply (odd_prime_not_in_power_of_two a j (Forall_inv Hall) Hj).
    rewrite <- Hnj, Heq. simpl. exists (2 ^ k * product rest). ring. }
  assert (Hone : forall j r, 0 <= j -> odd_prime r -> n = 2 ^ j * r ->
                             exists a, res = [a]).
  { intros j r Hj Hr Hnj. destruct res as [|a [|b rest]].
    - exfalso. apply (odd_prime_in_factors r k [] Hr Hk Hall).
      rewrite <- Heq, Hnj. exists (2 ^ j). ring.
    - now exists a.
    - exfalso.
      apply (no_pair_in_single_factor j r a b Hj Hr (Forall_inv Hall)
               (Forall_inv (Forall_inv_tail Hall))).
      rewrite <- Hnj, Heq. simpl. exists (2 ^ k * product rest). ring. }
  assert (Htwo : (exists p q, odd_prime p /\ odd_prime q /\ (p * q | n)) ->
                 (2 <= length res)%nat).
  { intros Hab.
    destruct (factor_sequence_two n Hn Hab) as (k' & p & q & rest & _ & Hrun' & _).
    rewrite (returns_unique _ _ _ (factor_sequence_stable n) Hrun Hrun').
    simpl. lia. }
  split; [| split; [| split; [| split]]].
  - split.
    + intros ->. exists k. split; [exact Hk |]. rewrite Heq. simpl. ring.
    + intros (j & Hj & Hnj). now apply (Hpow j).
  - split.
    + intros [r ->]. exists k, r. split; [exact Hk |].
      split; [exact (Forall_inv Hall) |]. rewrite Heq. simpl. ring.
    + intros (j & r & Hj & Hr & Hnj). now apply (Hone j r).
  - split; [| exact Htwo].
    intros Hlen. destruct res as [|p [|q rest]]; simpl in Hlen; try lia.
    exists p, q. split; [exact (Forall_inv Hall) |].
    split; [exact (Forall_inv (Forall_inv_tail Hall)) |].
    exists (2 ^ k * product rest). rewrite Heq. simpl. ring.
  - intros -> past. now apply primeFactors_empty.
  - intros r -> past. now apply primeFactors_single.
Qed.

Lemma primeFactors_reads_witness :
  exists res,
    returns (factor_sequence 28) res /\
    (res = [] <-> exists k, 0 <= k /\ 28 = 2 ^ k) /\
    ((exists r, res = [r]) <->
     exists k r, 0 <= k /\ odd_prime r /\ 28 = 2 ^ k * r) /\
    ((2 <= length res)%nat <->
     exists p q, odd_prime p /\ odd_prime q /\ (p * q | 28)) /\
    (res = [] -> forall past, faults (primeFactors past 28) IndexOutOfRange) /\
    (forall r, res = [r] -> forall past, returns (primeFactors past 28) (r, past)).
Proof.
  apply (primeFactors_reads 28). split; [lia | reflexivity].
Defined.

(** ** modInverse on every pair of non-negative inputs *)

(** X6.  On every pair of non-negative [long long] inputs the Euclidean
    loop ends within [phiN + 1] tests, on the remainder
    [a = gcd(e, phiN)], and [modInverse] returns a value. *)
Theorem modInverse_terminates e phiN :
  0 <= e < two63 -> 0 <= phiN < two63 ->
  (exists d i,
      modInverse_loop (S (Z.to_nat phiN)) e phiN 1 0 1
      = Ret (Z.gcd e phiN, d, i)) /\
  exists r, modInverse e phiN (S (Z.to_nat phiN)) = Ret r.
Proof.
  intros [He _] [Hp _].
  destruct (modInverse_loop_spec e phiN (S (Z.to_nat phiN)) e phiN 1 0 1)
    as (g & d & y & i & Hrun & Hinv); [now apply euclid_inv_init | lia |].
  destruct Hinv as ((Hg0 & _) & _ & _ & _ & _ & Hgcd & _).
  rewrite Z.gcd_0_r, Z.abs_eq in Hgcd by exact Hg0. subst g.
  split; [now exists d, i |].
  unfold modInverse. rewrite Hrun. simpl.
  destruct (negb (Z.gcd e phiN =? 1)); [eauto |]. destruct (i <? 0); eauto.
Qed.

Lemma modInverse_terminates_witness :
  (exists d i,
      modInverse_loop (S (Z.to_nat 3120)) 17 3120 1 0 1
      = Ret (Z.gcd 17 3120, d, i)) /\
  exists r, modInverse 17 3120 (S (Z.to_nat 3120)) = Ret r.
Proof.
  apply (modInverse_terminates 17 3120); split; (lia || reflexivity).
Defined.

Lemma coprime_of_inverse e phiN d :
  2 <= phiN -> (e * d) mod phiN = 1 -> Z.gcd e phiN = 1.
Proof.
  intros Hp Hinv.
  pose proof (Z.div_mod (e * d) phiN ltac:(lia)) as Hdm. rewrite Hinv in Hdm.
  apply Z.bezout_1_gcd. exists d, (- (e * d / phiN)). lia.
Qed.

(** X7.  For [e >= 0] and [phiN >= 2] the value [0] is returned exactly when
    the arguments are not coprime: on these inputs the failure value is
    never a legitimate inverse. *)
Theorem modInverse_zero_iff e phiN :
  0 <= e -> 2 <= phiN ->
  (returns (modInverse e phiN) 0 <-> Z.gcd e phiN <> 1).
Proof.
  intros He Hp. split.
  - intros H0 Hg.
    destruct (modInverse_inverse e phiN He Hp Hg) as (d & Hrun & _ & Hd).
    assert (0 = d); [| lia].
    apply (returns_unique (modInverse e phiN)); [apply modInverse_stable | exact H0 |].
    now exists (S (Z.to_nat phiN)).
  - apply modInverse_returns_0.
Qed.

Lemma modInverse_zero_iff_witness :
  returns (modInverse 6 9) 0 <-> Z.gcd 6 9 <> 1.
Proof.
  apply (modInverse_zero_iff 6 9); lia.
Defined.

(** X8.  For [e >= 0] and [phiN >= 2], every [d] in [[0, phiN)] with
    [e * d mod phiN = 1] is the value [modInverse] returns: the result is
    the one inverse of [e] in that range. *)
Theorem modInverse_unique e phiN d :
  0 <= e -> 2 <= phiN -> 0 <= d < phiN -> (e * d) mod phiN = 1 ->
  returns (modInverse e phiN) d.
Proof.
  intros He Hp Hd Hinv.
  pose proof (coprime_of_inverse e phiN d Hp Hinv) as Hg.
  destruct (modInverse_inverse e phiN He Hp Hg) as (d' & Hrun & Hinv' & Hd').
  assert (Heq : d' = d).
  { assert (H1 : (d' * (e * d)) mod phiN = d').
    { rewrite <- Z.mul_mod_idemp_r, Hinv, Z.mul_1_r by lia. apply Z.mod_small; lia. }
    assert (H2 : (d * (e * d')) mod phiN = d).
    { rewrite <- Z.mul_mod_idemp_r, Hinv', Z.mul_1_r by lia. apply Z.mod_small; lia. }
    replace (d' * (e * d)) with (d * (e * d')) in H1 by ring. congruence. }
  subst d'. now exists (S (Z.to_nat phiN)).
Qed.

Lemma modInverse_unique_witness : returns (modInverse 17 3120) 2753.
Proof.
  apply (modInverse_unique 17 3120 2753); [lia | lia | lia | reflexivity].
Defined.


(** X9.  No signed operation of [modInverse] overflows: for inputs
    [0 <= e, phiN < 2^63], in every state the loop reaches, the quotient,
    the remainder, the product [q * y] and the sum [d + q * y] of the next
    iteration, and the difference [phiN - d] of the final normalisation,
    are [long long] values. *)
Theorem modInverse_no_overflow e0 phi a b d y i :
  0 <= e0 < two63 -> 0 <= phi < two63 ->
  euclid_reach e0 phi a b d y i ->
  (b <> 0 ->
   0 <= Z.quot a b < two63 /\ 0 <= Z.rem a b < two63 /\
   0 <= Z.quot a b * y < two63 /\ 0 <= d + Z.quot a b * y < two63) /\
  - two63 <= phi - d < two63 /\ (i = 1 \/ i = -1).
Proof.
  intros He Hp Hr.
  destruct (euclid_reach_inv e0 phi a b d y i ltac:(lia) ltac:(lia) Hr)
    as (Hinv & _ & _).
  split.
  - intros Hb.
    destruct (modInverse_loop_range e0 phi a b d y i ltac:(lia) ltac:(lia) Hr Hb)
      as (_ & Hb' & Hq & Hrem & Hqy & Ht).
    repeat split; lia.
  - destruct Hinv as ((Ha & Hb & Hd & Hy) & Hi & _ & _ & Hphi & _ & Hord).
    split; [| exact Hi].
    assert (d <= Z.max 1 phi); [| assert (0 < two63) by reflexivity; lia].
    destruct Hord as [[-> _]|[Hlt Hle]]; [lia | nia].
Qed.

Lemma modInverse_no_overflow_witness :
  (17 <> 0 ->
   0 <= Z.quot 3120 17 < two63 /\ 0 <= Z.rem 3120 17 < two63 /\
   0 <= Z.quot 3120 17 * (1 + Z.quot 17 3120 * 0) < two63 /\
   0 <= 0 + Z.quot 3120 17 * (1 + Z.quot 17 3120 * 0) < two63) /\
  - two63 <= 3120 - 0 < two63 /\ (- (1) = 1 \/ - (1) = -1).
Proof.
  apply (modInverse_no_overflow 17 3120 3120 (Z.rem 17 3120) 0
           (1 + Z.quot 17 3120 * 0) (- (1))).
  - split; [lia | reflexivity].
  - split; [lia | reflexivity].
  - apply (reach_step 17 3120 17 3120 1 0 1); [apply reach_init | discriminate].
Defined.

(** ** The number of iterations of modExp *)

Lemma modExp_loop_needs k : forall x a e b,
  modExp_loop (S k) x a e b <> Timeout -> e < 2 ^ Z.of_nat k.
Proof.
  induction k as [|k IH]; intros x a e b H.
  - simpl in H. destruct (Z.ltb_spec 0 e); [congruence | simpl; lia].
  - rewrite modExp_loop_S in H.
    rewrite Nat2Z.inj_succ, Z.pow_succ_r by lia.
    destruct (Z.ltb_spec 0 e) as [Hpos|Hnpos].
    + apply IH in H. rewrite Z.quot_div_nonneg in H by lia.
      pose proof (Z.div_mod e 2 ltac:(lia)).
      pose proof (Z.mod_pos_bound e 2 ltac:(lia)). lia.
    + pose proof (Z.pow_pos_nonneg 2 (Z.of_nat k) ltac:(lia) ltac:(lia)). lia.
Qed.

(** X10.  With a non-zero modulus, [modExp] settles within [k + 1] loop tests
    exactly when [e < 2^k]: the loop body runs once per binary digit of a
    positive [e], and never for [e <= 0]. *)
Theorem modExp_iterations a e b k :
  b <> 0 ->
  ((exists v, modExp a e b (S k) = Ret v) <-> e < 2 ^ Z.of_nat k).
Proof.
  intros Hb. unfold modExp.
  destruct (Z.eqb_spec b 0) as [|_]; [contradiction |].
  split.
  - intros [v Hv]. apply (modExp_loop_needs k 1 (Z.rem a b) e b). congruence.
  - intros He. now apply modExp_loop_total.
Qed.

Lemma modExp_iterations_witness :
  (exists v, modExp 65 17 3233 6 = Ret v) <-> 17 < 2 ^ Z.of_nat 5.
Proof.
  apply (modExp_iterations 65 17 3233 5). discriminate.
Defined.

(** ** attack1 on every input *)

Lemma word_facts : two63 < two64 /\ two64 = 2 * two63 /\ 0 < two63.
Proof. repeat split; reflexivity. Qed.

Lemma to_u64_eq_iff c v :
  - two63 <= c < two63 -> 0 <= v < two63 -> (v = to_u64 c <-> v = c).
Proof.
  intros Hc Hv. pose proof word_facts as (Hw1 & Hw2 & Hw3).
  destruct (Z.lt_ge_cases c 0) as [Hneg|Hpos].
  - rewrite to_u64_negative by lia. lia.
  - rewrite to_u64_small by lia. reflexivity.
Qed.

Lemma attack1_loop_total e n c (j : nat) : forall m0,
  0 <= m0 -> n <= m0 + Z.of_nat j -> n < two64 ->
  exists v, returns (fun k => attack1_loop k e n c m0) v /\
            (v = -1 \/ m0 <= v < n).
Proof.
  induction j as [|j IH]; intros m0 H0 Hn Hw.
  - exists (-1). split; [apply attack1_loop_end; lia | now left].
  - destruct (Z.lt_ge_cases m0 n) as [Hlt|Hge].
    + destruct (modExp_total (to_u64 m0) e (to_u64 n)) as [r Hr].
      { rewrite to_u64_small; lia. }
      destruct (Z.eq_dec r (to_u64 c)) as [Heq|Hne].
      * exists m0. split; [now apply (attack1_loop_hit e n c m0 r) | right; lia].
      * destruct (IH (m0 + 1)) as (v & Hv & Hrange); try lia.
        exists v. split; [now apply (attack1_loop_miss e n c m0 r) | lia].
    + exists (-1). split; [now apply attack1_loop_end | now left].
Qed.

(** X11.  On every input with [n] a [long long], [attack1] ends: it returns
    either [-1] or a candidate in [[0, n)], and it never performs a
    remainder by zero or any other faulting operation. *)
Theorem attack1_terminates e n c :
  n < two63 ->
  (exists v, returns (attack1 e n c) v /\ (v = -1 \/ 0 <= v < n)) /\
  forall f, ~ faults (attack1 e n c) f.
Proof.
  intros Hn. pose proof word_facts as (Hw1 & _ & _).
  destruct (attack1_loop_total e n c (Z.to_nat n) 0) as (v & Hv & Hrange); try lia.
  split; [now exists v |].
  intros f Hf. now apply (faults_not_returns _ f v (attack1_stable e n c) Hf).
Qed.

Lemma attack1_terminates_witness :
  (exists v, returns (attack1 17 3233 2790) v /\ (v = -1 \/ 0 <= v < 3233)) /\
  forall f, ~ faults (attack1 17 3233 2790) f.
Proof.
  apply (attack1_terminates 17 3233 2790). reflexivity.
Defined.

(** What a settled run of the scan says about the candidates it went
    through. *)
Lemma attack1_loop_sound e n c k : forall m0 v,
  0 <= m0 -> attack1_loop k e n c m0 = Ret v ->
  (v = -1 /\
   forall t, m0 <= t < n -> ~ returns (modExp (to_u64 t) e (to_u64 n)) (to_u64 c)) \/
  (m0 <= v < n /\
   returns (modExp (to_u64 v) e (to_u64 n)) (to_u64 c) /\
   forall t, m0 <= t < v -> ~ returns (modExp (to_u64 t) e (to_u64 n)) (to_u64 c)).
Proof.
  induction k as [|k IH]; intros m0 v H0 H; simpl in H; [discriminate |].
  destruct (Z.ltb_spec m0 n) as [Hlt|Hge].
  - apply bind_ret_inv in H. destruct H as (r & Hr & H).
    destruct (Z.eqb_spec r (to_u64 c)) as [Heq|Hne].
    + inversion H; subst. right. split; [lia |]. split; [now exists k |].
      intros t Ht. lia.
    + assert (Hm0 : ~ returns (modExp (to_u64 m0) e (to_u64 n)) (to_u64 c)).
      { intros Hc. apply Hne.
        apply (returns_unique (modExp (to_u64 m0) e (to_u64 n)));
          [apply modExp_stable | now exists k | exact Hc]. }
      destruct (IH (m0 + 1) v ltac:(lia) H) as [[Hv Hnone]|(Hv & Hhit & Hnone)].
      * left. split; [exact Hv |]. intros t Ht.
        destruct (Z.eq_dec t m0) as [->|Hne']; [exact Hm0 | apply Hnone; lia].
      * right. split; [lia |]. split; [exact Hhit |]. intros t Ht.
        destruct (Z.eq_dec t m0) as [->|Hne']; [exact Hm0 | apply Hnone; lia].
  - inversion H; subst. left. split; [reflexivity |]. intros t Ht. lia.
Qed.

(** X12.  For [e >= 0], [n >= 2] with [n^2] in the word and [c] a
    [long long]: [attack1] returns [m] exactly when either [m = -1] and no
    candidate of [[0, n)] has [t ^ e mod n = c], or [m] is the least
    candidate with [m ^ e mod n = c]. *)
Theorem attack1_characterised e n c m :
  0 <= e -> 2 <= n -> n * n < two64 -> - two63 <= c < two63 ->
  (returns (attack1 e n c) m <->
   (m = -1 /\ forall t, 0 <= t < n -> t ^ e mod n <> c) \/
   (0 <= m < n /\ m ^ e mod n = c /\ forall t, 0 <= t < m -> t ^ e mod n <> c)).
Proof.
  intros He Hn Hnn Hc. pose proof word_facts as (Hw1 & Hw2 & Hw3).
  assert (Hn32 : n < 2 ^ 32) by (unfold two64 in Hnn; nia).
  assert (H32 : 2 ^ 32 < two63) by reflexivity.
  assert (Hval : forall t, 0 <= t < n ->
             returns (modExp (to_u64 t) e (to_u64 n)) (t ^ e mod n)).
  { intros t Ht. rewrite !to_u64_small by lia. apply modExp_correct; lia. }
  assert (Hbound : forall t, 0 <= t ^ e mod n < two63).
  { intros t. pose proof (Z.mod_pos_bound (t ^ e) n ltac:(lia)). lia. }
  assert (Hiff : forall t, 0 <= t < n ->
             (returns (modExp (to_u64 t) e (to_u64 n)) (to_u64 c) <-> t ^ e mod n = c)).
  { intros t Ht. rewrite <- (to_u64_eq_iff c (t ^ e mod n) Hc (Hbound t)). split.
    - intros H. apply (returns_unique (modExp (to_u64 t) e (to_u64 n)));
        [apply modExp_stable | now apply Hval | exact H].
    - intros <-. now apply Hval. }
  split.
  - intros [k Hk]. unfold attack1 in Hk.
    destruct (attack1_loop_sound e n c k 0 m ltac:(lia) Hk)
      as [[Hm Hnone]|(Hm & Hhit & Hnone)].
    + left. split; [exact Hm |]. intros t Ht Heq. apply (Hnone t Ht). now apply Hiff.
    + right. split; [exact Hm |]. split; [now apply Hiff |].
      intros t Ht Heq. apply (Hnone t Ht). apply Hiff; [lia | exact Heq].
  - intros [[-> Hnone]|(Hm & Hhit & Hnone)]; unfold attack1.
    + apply (attack1_loop_none e n c (fun t => t ^ e mod n) Hval (Z.to_nat n) 0); try lia.
      intros t Ht Heq. cbv beta in Heq. apply (Hnone t ltac:(lia)).
      now apply (to_u64_eq_iff c (t ^ e mod n) Hc (Hbound t)).
    + apply (attack1_loop_first e n c (fun t => t ^ e mod n) Hval (Z.to_nat m) 0 m); try lia.
      * cbv beta. now apply (to_u64_eq_iff c (m ^ e mod n) Hc (Hbound m)).
      * intros t Ht Heq. cbv beta in Heq. apply (Hnone t ltac:(lia)).
        now apply (to_u64_eq_iff c (t ^ e mod n) Hc (Hbound t)).
Qed.

Lemma attack1_characterised_witness :
  returns (attack1 3 15 8) 2 <->
  (2 = -1 /\ forall t, 0 <= t < 15 -> t ^ 3 mod 15 <> 8) \/
  (0 <= 2 < 15 /\ 2 ^ 3 mod 15 = 8 /\ forall t, 0 <= t < 2 -> t ^ 3 mod 15 <> 8).
Proof.
  apply (attack1_characterised 3 15 8 2); [lia | lia | reflexivity |].
  split; [discriminate | reflexivity].
Defined.

(** X13.  With an exponent [e <= 0] the loop of [modExp] never runs and every
    candidate has the value [1]: for [n >= 1], [attack1] returns [0] when
    [c = 1] and [-1] otherwise. *)
Theorem attack1_nonpositive_exponent e n c :
  e <= 0 -> 1 <= n < two63 -> - two63 <= c < two63 ->
  returns (attack1 e n c) (if c =? 1 then 0 else -1).
Proof.
  intros He Hn Hc. pose proof word_facts as (Hw1 & Hw2 & Hw3).
  assert (Hval : forall t, 0 <= t < n ->
             returns (modExp (to_u64 t) e (to_u64 n)) 1).
  { intros t Ht. exists 1%nat. unfold modExp.
    rewrite (to_u64_small n) by lia.
    destruct (Z.eqb_spec n 0); [lia |]. now apply modExp_loop_nonpos. }
  unfold attack1. destruct (Z.eqb_spec c 1) as [->|Hne].
  - apply (attack1_loop_hit e n 1 0 1); [lia | apply Hval; lia |].
    symmetry. apply to_u64_small. lia.
  - apply (attack1_loop_none e n c (fun _ => 1) Hval (Z.to_nat n) 0); try lia.
    intros t Ht Heq. apply Hne. symmetry.
    apply (to_u64_eq_iff c 1 Hc); [lia | exact Heq].
Qed.

Lemma attack1_nonpositive_exponent_witness :
  returns (attack1 0 15 7) (if 7 =? 1 then 0 else -1).
Proof.
  apply (attack1_nonpositive_exponent 0 15 7); [lia | | ].
  - split; [lia | reflexivity].
  - split; [discriminate | reflexivity].
Defined.

(** ** primeFactors and attack2 outside the odd semiprimes *)

Lemma attack2_faults_of_primeFactors past e n c f :
  faults (primeFactors past n) f -> faults (attack2 past e n c) f.
Proof.
  intros [k Hk]. exists k. unfold attack2. now rewrite Hk.
Qed.

Lemma factor_sequence_negative n :
  n < 0 -> returns (factor_sequence n) [].
Proof.
  intros Hn.
  destruct (halve_loop_neg (S (Z.to_nat (- n))) n ltac:(lia)) as (x & Hrun & Hx).
  unfold factor_sequence.
  apply (returns_bind (fun f => halve_loop f n) _ x);
    [apply halve_loop_stable | | exact Hrun |].
  - apply (stable_bind (fun f => trial_loop f 3 x [])); [apply trial_loop_stable |].
    intros [x2 r]. apply stable_const.
  - exists 1%nat. simpl.
    assert (Hs : Z.sqrt x = 0) by (apply Z.sqrt_neg; lia).
    rewrite Hs. simpl. destruct (Z.ltb_spec 2 x); [lia | reflexivity].
Qed.

(** X5.  On every negative [n] the halving loop ends on a negative value,
    the trial loop does not run and the vector stays empty: [primeFactors],
    and with it [attack2], stops on the read of [res[0]]. *)
Theorem primeFactors_negative past e n c :
  n < 0 ->
  returns (factor_sequence n) [] /\
  faults (primeFactors past n) IndexOutOfRange /\
  faults (attack2 past e n c) IndexOutOfRange.
Proof.
  intros Hn. pose proof (factor_sequence_negative n Hn) as Hseq.
  assert (Hf : faults (primeFactors past n) IndexOutOfRange)
    by (now apply primeFactors_empty).
  split; [exact Hseq |]. split; [exact Hf |].
  now apply attack2_faults_of_primeFactors.
Qed.

Lemma primeFactors_negative_witness :
  returns (factor_sequence (-15)) [] /\
  faults (primeFactors 0 (-15)) IndexOutOfRange /\
  faults (attack2 0 17 (-15) 4) IndexOutOfRange.
Proof.
  apply (primeFactors_negative 0 17 (-15) 4). lia.
Defined.

(** *** Factors of two are stripped and never reported *)

Lemma primeFactors_unfold past n k :
  primeFactors past n k =
  bind (halve_loop k n) (fun x1 => primeFactors_after_halving past x1 k).
Proof.
  unfold primeFactors, factor_sequence, primeFactors_after_halving.
  now destruct (halve_loop k n).
Qed.

Lemma primeFactors_after_halving_stable past x1 : stable (primeFactors_after_halving past x1).
Proof.
  unfold primeFactors_after_halving.
  apply (stable_bind
           (fun k => '(x2, res) <- trial_loop k 3 x1 [] ;;
                     Ret (if 2 <? x2 then res ++ [x2] else res))).
  - apply (stable_bind (fun k => trial_loop k 3 x1 [])); [apply trial_loop_stable |].
    intros [x2 res]. apply stable_const.
  - intros res. apply stable_const.
Qed.

Lemma halve_loop_double k n : halve_loop (S k) (2 * n) = halve_loop k n.
Proof.
  change (halve_loop (S k) (2 * n))
    with (if Z.rem (2 * n) 2 =? 0 then halve_loop k (Z.quot (2 * n) 2) else Ret (2 * n)).
  rewrite (Z.mul_comm 2 n), Z.rem_mul, Z.quot_mul by lia. reflexivity.
Qed.

Lemma primeFactors_twice_outcome past n o :
  o <> Timeout ->
  ((exists k, primeFactors past (2 * n) k = o) <-> (exists k, primeFactors past n k = o)).
Proof.
  intros Ho. split; intros [k Hk].
  - rewrite primeFactors_unfold in Hk.
    destruct k as [|k]; [simpl in Hk; congruence |].
    exists (S k). rewrite primeFactors_unfold.
    rewrite halve_loop_double in Hk.
    destruct (halve_loop k n) as [x|f|] eqn:Hh; simpl in Hk; [| | congruence].
    + now rewrite (returns_at _ _ k (S k) (halve_loop_stable n) Hh) by lia.
    + rewrite (halve_loop_stable n k (S k) (Fault f) Hh) by (discriminate || lia).
      exact Hk.
  - exists (S k). rewrite primeFactors_unfold in Hk |- *.
    rewrite halve_loop_double.
    destruct (halve_loop k n) as [x|f|] eqn:Hh; simpl in Hk |- *; [| exact Hk | congruence].
    apply (primeFactors_after_halving_stable past x k (S k) o Hk Ho). lia.
Qed.

(** X4.  A factor [2] is dropped before anything is collected:
    [primeFactors(2 * n)] returns what [primeFactors(n)] returns and
    faults where it faults. *)
Theorem primeFactors_double past n :
  (forall r, returns (primeFactors past (2 * n)) r <-> returns (primeFactors past n) r) /\
  (forall f, faults (primeFactors past (2 * n)) f <-> faults (primeFactors past n) f).
Proof.
  split.
  - intros r. apply (primeFactors_twice_outcome past n (Ret r)). discriminate.
  - intros f. apply (primeFactors_twice_outcome past n (Fault f)). discriminate.
Qed.



Lemma primeFactors_returns_positive past n r :
  returns (primeFactors past n) r -> 0 < n.
Proof.
  intros Hr.
  destruct (Z.lt_trichotomy n 0) as [Hneg|[->|Hpos]]; [| | exact Hpos].
  - exfalso.
    apply (faults_not_returns (primeFactors past n) IndexOutOfRange r);
      [apply primeFactors_stable | | exact Hr].
    apply primeFactors_empty. now apply factor_sequence_negative.
  - destruct Hr as [k Hk]. unfold primeFactors, factor_sequence in Hk.
    rewrite halve_loop_zero in Hk. discriminate.
Qed.

Lemma semiprime_divisor_bound n p q :
  0 < n -> odd_prime p -> odd_prime q -> (p * q | n) -> 9 <= n.
Proof.
  intros Hn [_ Hp] [_ Hq] Hd.
  apply Z.divide_pos_le in Hd; [nia | exact Hn].
Qed.




(** X15.  For [e >= 0], [n^2] in the word, [c] a non-negative [long long]
    and [n] divisible by a product of two odd primes, [attack2] returns one
    result [(m, p, q, d)], whatever lies past the vector: [p <= q] are odd
    primes whose product divides [n]; [d] lies in [[0, (p-1)(q-1))], is [0]
    exactly when [e] has no inverse modulo [(p-1)(q-1)] and is the inverse
    of [e] otherwise; and the plaintext is [m = c ^ d mod n]. *)
Theorem attack2_output e n c :
  0 <= e -> 0 < n -> n * n < two64 -> 0 <= c < two63 ->
  (exists a b, odd_prime a /\ odd_prime b /\ (a * b | n)) ->
  exists m p q d,
    (forall past, returns (attack2 past e n c) (m, p, q, d)) /\
    odd_prime p /\ odd_prime q /\ p <= q /\ (p * q | n) /\
    0 <= d < totient p q /\
    (d = 0 <-> Z.gcd e (totient p q) <> 1) /\
    (Z.gcd e (totient p q) = 1 -> (e * d) mod totient p q = 1) /\
    m = c ^ d mod n.
Proof.
  intros He Hn0 Hnn Hc Hab. pose proof word_facts as (Hw1 & Hw2 & Hw3).
  destruct (factor_sequence_two n Hn0 Hab)
    as (k & p & q & rest & Hk & Hrun & Heq & Hall & Hsort).
  destruct (two_smallest_props n k p q rest Hk Heq Hall Hsort)
    as (Hp & Hq & Hle & Hd & _).
  pose proof (semiprime_divisor_bound n p q Hn0 Hp Hq Hd) as Hn9.
  assert (Hn32 : n < 2 ^ 32) by (unfold two64 in Hnn; nia).
  assert (H32 : 2 ^ 32 < two63) by reflexivity.
  assert (Hphi : 4 <= totient p q).
  { unfold totient. destruct Hp as [_ Hp]. destruct Hq as [_ Hq]. nia. }
  assert (Hdex : exists d, returns (modInverse e (totient p q)) d /\
                   0 <= d < totient p q /\
                   (d = 0 <-> Z.gcd e (totient p q) <> 1) /\
                   (Z.gcd e (totient p q) = 1 -> (e * d) mod totient p q = 1)).
  { destruct (Z.eq_dec (Z.gcd e (totient p q)) 1) as [Hg|Hg].
    - destruct (modInverse_inverse e (totient p q) He ltac:(lia) Hg)
        as (d & Hrund & Hinv & Hdr).
      exists d. split; [now exists (S (Z.to_nat (totient p q))) |].
      split; [lia |]. split; [| intros _; exact Hinv].
      split; [lia | contradiction].
    - exists 0. split; [now apply modInverse_returns_0 |].
      split; [lia |]. split; [tauto | contradiction]. }
  destruct Hdex as (d & Hrund & Hdr & Hd0 & Hdinv).
  exists (c ^ d mod n), p, q, d.
  split; [| split; [exact Hp |]; split; [exact Hq |]; split; [exact Hle |];
            split; [exact Hd |]; split; [exact Hdr |]; split; [exact Hd0 |];
            split; [exact Hdinv | reflexivity]].
  intros past.
  pose proof (Z.mod_pos_bound (c ^ d) n ltac:(lia)) as Hb.
  apply (attack2_compose past e n c p q d (c ^ d mod n) (c ^ d mod n)).
  - now apply (primeFactors_of_sequence past n (p :: q :: rest) p q rest).
  - exact Hrund.
  - rewrite !to_u64_small by lia. apply modExp_correct; lia.
  - apply attack2_scan_below; lia.
Qed.

Lemma attack2_output_witness :
  exists m p q d,
    (forall past, returns (attack2 past 17 3233 2790) (m, p, q, d)) /\
    odd_prime p /\ odd_prime q /\ p <= q /\ (p * q | 3233) /\
    0 <= d < totient p q /\
    (d = 0 <-> Z.gcd 17 (totient p q) <> 1) /\
    (Z.gcd 17 (totient p q) = 1 -> (17 * d) mod totient p q = 1) /\
    m = 2790 ^ d mod 3233.
Proof.
  apply (attack2_output 17 3233 2790);
    [lia | lia | reflexivity | split; [lia | reflexivity] |].
  exists 53, 61. split; [split; [exact prime_53 | lia] |].
  split; [split; [exact prime_61 | lia] |]. exists 1. reflexivity.
Defined.

(** ** totient *)

Lemma pow_totient_one_mod p q a :
  Z.prime p -> 0 <= q - 1 -> a mod p <> 0 -> a ^ totient p q mod p = 1.
Proof.
  intros Hp Hq Ha. pose proof (Z.prime_ge_2 p Hp) as Hp2.
  unfold totient. rewrite Z.pow_mul_r by lia.
  rewrite <- Z.mod_pow_l, (Z.fermat_nz p a Hp Ha), Z.pow_1_l by lia.
  apply Z.mod_small. lia.
Qed.

Lemma coprime_product_mod p q a :
  1 < p -> Z.gcd a (p * q) = 1 -> a mod p <> 0.
Proof.
  intros Hp Hg Hz.
  apply Z.mod_divide in Hz; [| lia].
  assert (Hd : (p | Z.gcd a (p * q)))
    by (apply Z.gcd_greatest; [exact Hz | apply Z.divide_factor_l]).
  rewrite Hg in Hd. apply Z.divide_1_r_nonneg in Hd; lia.
Qed.

(** X16.  For distinct primes [p] and [q] whose product is a [long long],
    so that [(p - 1) * (q - 1)] does not overflow, [totient(p, q)] is an
    exponent of the units modulo [p * q]: every [a] coprime to [p * q] has
    [a ^ totient(p, q) mod (p * q) = 1]. *)
Theorem totient_euler p q a :
  Z.prime p -> Z.prime q -> p <> q -> p * q < two63 ->
  Z.gcd a (p * q) = 1 ->
  0 < totient p q < two63 /\ a ^ totient p q mod (p * q) = 1.
Proof.
  intros Hp Hq Hne Hrange Hg.
  pose proof (Z.prime_ge_2 p Hp) as Hp2. pose proof (Z.prime_ge_2 q Hq) as Hq2.
  split; [unfold totient; nia |].
  transitivity (1 mod (p * q)); [| apply Z.mod_small; nia].
  apply mod_eq_of_divide; [nia |].
  apply divide_product_coprime.
  - now apply distinct_primes_coprime.
  - apply divide_of_mod_eq; [lia |].
    rewrite (Z.mod_small 1 p) by lia.
    apply pow_totient_one_mod; [exact Hp | lia |].
    apply (coprime_product_mod p q a); [lia | exact Hg].
  - apply divide_of_mod_eq; [lia |].
    rewrite (Z.mod_small 1 q) by lia.
    rewrite totient_comm.
    apply pow_totient_one_mod; [exact Hq | lia |].
    apply (coprime_product_mod q p a); [lia |]. now rewrite Z.mul_comm.
Qed.

Lemma totient_euler_witness :
  0 < totient 53 61 < two63 /\ 7 ^ totient 53 61 mod (53 * 61) = 1.
Proof.
  apply (totient_euler 53 61 7);
    [exact prime_53 | exact prime_61 | discriminate | reflexivity | reflexivity].
Defined.

(** ** The final return of attack2 *)

Lemma primeFactors_one_faults past : faults (primeFactors past 1) IndexOutOfRange.
Proof. exists 2%nat. reflexivity. Qed.

(** X17.  For every [n] that is a [long long], whatever [attack2] returns
    lies in [[0, n)] and is the value of [modExp(c, d, n)]: the closing
    [return -1] is never reached, on any input, and nothing is returned
    for [n < 2]. *)
Theorem attack2_result_range past e n c m p q d :
  n < two63 -> returns (attack2 past e n c) (m, p, q, d) ->
  2 <= n /\ 0 <= m < n /\ returns (modExp (to_u64 c) d (to_u64 n)) m.
Proof.
  intros Hn [k Hk]. pose proof word_facts as (Hw1 & _ & _).
  destruct (attack2_inv past e n c k m p q d Hk) as (ptext & Hpf & _ & Hexp & Hscan).
  assert (Hpos : 0 < n) by (apply (primeFactors_returns_positive past n (p, q)); now exists k).
  assert (Hn2 : 2 <= n).
  { destruct (Z.eq_dec n 1) as [->|Hne]; [| lia]. exfalso.
    apply (faults_not_returns (primeFactors past 1) IndexOutOfRange (p, q));
      [apply primeFactors_stable | apply primeFactors_one_faults | now exists k]. }
  pose proof Hexp as Hexp'. rewrite (to_u64_small n) in Hexp' by lia.
  pose proof (modExp_bound (to_u64 c) d n k ptext Hn2 Hexp') as Hb.
  assert (m = ptext).
  { apply (returns_unique (fun j => attack2_scan j ptext n 0));
      [apply attack2_scan_stable | now exists k | apply attack2_scan_below; lia]. }
  subst m. split; [exact Hn2 |]. split; [exact Hb | now exists k].
Qed.

Lemma attack2_result_range_witness :
  2 <= 15 /\ 0 <= 1 < 15 /\ returns (modExp (to_u64 4) 0 (to_u64 15)) 1.
Proof.
  apply (attack2_result_range 0 2 15 4 1 3 5 0); [reflexivity |].
  exists 10%nat. reflexivity.
Defined.
